(** * Eviction Platformer: the simulation step of [game.js]

    A shallow embedding of the game state and of [update], [rectIntersect],
    the two spawners, [shootLetter], the key handler and [gameLoop], followed
    by the properties of the simulation step.

    Numbers.  JavaScript numbers are IEEE doubles; here they are exact
    rationals ([Q]), so the development speaks about the arithmetic the code
    writes down and not about rounding.  [hero.lives], [hero.score] and
    [hero.frameIndex] only ever see integer additions and are integers ([Z]).

    Arrays.  [enemies], [envelopes] and [letters] are lists; [a[i]] is the
    list lookup [a !! i], [a.splice(i, 1)] is [delete i a] and [a.push(v)] is
    [a ++ [v]].  Reading [a[i]] out of range gives [undefined] in JavaScript
    and the property access that follows throws; the loops therefore live in
    the [option] monad, [None] standing for the uncaught [TypeError].

    Randomness.  [Math.random] is an oracle [Math_random_oracle : nat -> Q]
    (the value returned by the k-th call) together with the number of calls
    made so far, which is part of the state.

    Not modelled: asset loading, [draw], [updateUI] (they only read the
    state) and the [keys] table (written by the key handlers, read nowhere). *)

From Stdlib Require Import String ZArith QArith Qminmax Qround Lia Lqa.
From stdpp Require Import base option list.

Local Open Scope Q_scope.

(** ** Numbers *)

(** JavaScript [a < b] on numbers. *)
Definition Qltb (a b : Q) : bool :=
  (Qnum a * QDen b <? Qnum b * QDen a)%Z.

(** JavaScript [a > b] on numbers. *)
Definition Qgtb (a b : Q) : bool := Qltb b a.

(** ** Game constants *)

Definition GRAVITY : Q := 0.5.
Definition JUMP_VELOCITY : Q := -12.
Definition WORLD_SPEED : Q := 3.
Definition GROUND_HEIGHT : Q := 80.
Definition HERO_SIZE : Q := 80.
Definition ENEMY_SIZE : Q := 80.
Definition ITEM_SIZE : Q := 50.
Definition LETTER_SIZE : Q := 20.
Definition ENEMY_SPAWN_BASE : Q := 3500.
Definition ENVELOPE_SPAWN_BASE : Q := 2500.

(** ** Data model *)

(** The canvas element comes from the page, not from [game.js]: its two
    dimensions are parameters of everything below. *)
Module Canvas.
Record t : Type := mk { width : Q; height : Q }.
End Canvas.

(** The [hero] object. *)
Module Hero.
Record t : Type := mk {
  worldX : Q;
  x : Q;
  y : Q;
  vy : Q;
  onGround : bool;
  frameIndex : Z;
  frameTimer : Q;
  lives : Z;
  score : Z
}.

Definition set_worldX (v : Q) (h : t) : t :=
  mk v (x h) (y h) (vy h) (onGround h) (frameIndex h) (frameTimer h) (lives h) (score h).
Definition set_y (v : Q) (h : t) : t :=
  mk (worldX h) (x h) v (vy h) (onGround h) (frameIndex h) (frameTimer h) (lives h) (score h).
Definition set_vy (v : Q) (h : t) : t :=
  mk (worldX h) (x h) (y h) v (onGround h) (frameIndex h) (frameTimer h) (lives h) (score h).
Definition set_onGround (v : bool) (h : t) : t :=
  mk (worldX h) (x h) (y h) (vy h) v (frameIndex h) (frameTimer h) (lives h) (score h).
Definition set_frameIndex (v : Z) (h : t) : t :=
  mk (worldX h) (x h) (y h) (vy h) (onGround h) v (frameTimer h) (lives h) (score h).
Definition set_frameTimer (v : Q) (h : t) : t :=
  mk (worldX h) (x h) (y h) (vy h) (onGround h) (frameIndex h) v (lives h) (score h).
Definition set_lives (v : Z) (h : t) : t :=
  mk (worldX h) (x h) (y h) (vy h) (onGround h) (frameIndex h) (frameTimer h) v (score h).
Definition set_score (v : Z) (h : t) : t :=
  mk (worldX h) (x h) (y h) (vy h) (onGround h) (frameIndex h) (frameTimer h) (lives h) v.
End Hero.

(** The object literal built by [spawnEnemy] and by [spawnEnvelope]:
    [{ x, y, width, height }], [x] in world coordinates. *)
Module Box.
Record t : Type := mk { x : Q; y : Q; width : Q; height : Q }.
End Box.

(** The object literal built by [shootLetter]. *)
Module Letter.
Record t : Type := mk { x : Q; y : Q; width : Q; height : Q; speed : Q }.

Definition set_x (v : Q) (l : t) : t :=
  mk v (y l) (width l) (height l) (speed l).
End Letter.

(** The module-level variables of [game.js]. *)
Record World : Type := mkWorld {
  hero : Hero.t;
  cameraX : Q;
  lastTime : Q;
  gameOver : bool;
  enemies : list Box.t;
  envelopes : list Box.t;
  letters : list Letter.t;
  enemySpawnTimer : Q;
  envelopeSpawnTimer : Q;
  randomCalls : nat
}.

Definition set_hero (v : Hero.t) (w : World) : World :=
  mkWorld v (cameraX w) (lastTime w) (gameOver w) (enemies w) (envelopes w)
    (letters w) (enemySpawnTimer w) (envelopeSpawnTimer w) (randomCalls w).
Definition set_cameraX (v : Q) (w : World) : World :=
  mkWorld (hero w) v (lastTime w) (gameOver w) (enemies w) (envelopes w)
    (letters w) (enemySpawnTimer w) (envelopeSpawnTimer w) (randomCalls w).
Definition set_lastTime (v : Q) (w : World) : World :=
  mkWorld (hero w) (cameraX w) v (gameOver w) (enemies w) (envelopes w)
    (letters w) (enemySpawnTimer w) (envelopeSpawnTimer w) (randomCalls w).
Definition set_gameOver (v : bool) (w : World) : World :=
  mkWorld (hero w) (cameraX w) (lastTime w) v (enemies w) (envelopes w)
    (letters w) (enemySpawnTimer w) (envelopeSpawnTimer w) (randomCalls w).
Definition set_enemies (v : list Box.t) (w : World) : World :=
  mkWorld (hero w) (cameraX w) (lastTime w) (gameOver w) v (envelopes w)
    (letters w) (enemySpawnTimer w) (envelopeSpawnTimer w) (randomCalls w).
Definition set_envelopes (v : list Box.t) (w : World) : World :=
  mkWorld (hero w) (cameraX w) (lastTime w) (gameOver w) (enemies w) v
    (letters w) (enemySpawnTimer w) (envelopeSpawnTimer w) (randomCalls w).
Definition set_letters (v : list Letter.t) (w : World) : World :=
  mkWorld (hero w) (cameraX w) (lastTime w) (gameOver w) (enemies w) (envelopes w)
    v (enemySpawnTimer w) (envelopeSpawnTimer w) (randomCalls w).
Definition set_enemySpawnTimer (v : Q) (w : World) : World :=
  mkWorld (hero w) (cameraX w) (lastTime w) (gameOver w) (enemies w) (envelopes w)
    (letters w) v (envelopeSpawnTimer w) (randomCalls w).
Definition set_envelopeSpawnTimer (v : Q) (w : World) : World :=
  mkWorld (hero w) (cameraX w) (lastTime w) (gameOver w) (enemies w) (envelopes w)
    (letters w) (enemySpawnTimer w) v (randomCalls w).
Definition set_randomCalls (v : nat) (w : World) : World :=
  mkWorld (hero w) (cameraX w) (lastTime w) (gameOver w) (enemies w) (envelopes w)
    (letters w) (enemySpawnTimer w) (envelopeSpawnTimer w) v.

(** ** Geometry *)

Definition rectIntersect (aX aY aW aH bX bY bW bH : Q) : bool :=
  Qltb aX (bX + bW) &&
  Qgtb (aX + aW) bX &&
  Qltb aY (bY + bH) &&
  Qgtb (aY + aH) bY.

(** ** The simulation *)

Section Game.

Variable canvas : Canvas.t.

(** [Math_random_oracle k] is what the [k]-th call of [Math.random]
    returns (counting from 0). *)
Variable Math_random_oracle : nat -> Q.

(** [Math.random()]: the next value of the oracle. *)
Definition Math_random (w : World) : Q * World :=
  (Math_random_oracle (randomCalls w), set_randomCalls (S (randomCalls w)) w).

(** The state the script sets up, at the moment the start callback has
    stored the first timestamp in [lastTime]. *)
Definition initial (ts : Q) : World :=
  {| hero := {| Hero.worldX := 0;
                Hero.x := 100;
                Hero.y := Canvas.height canvas - GROUND_HEIGHT - HERO_SIZE;
                Hero.vy := 0;
                Hero.onGround := true;
                Hero.frameIndex := 0;
                Hero.frameTimer := 0;
                Hero.lives := 3;
                Hero.score := 0 |};
     cameraX := 0;
     lastTime := ts;
     gameOver := false;
     enemies := [];
     envelopes := [];
     letters := [];
     enemySpawnTimer := 0;
     envelopeSpawnTimer := 0;
     randomCalls := 0 |}.

Definition shootLetter (w : World) : World :=
  let letter :=
    {| Letter.x := Hero.worldX (hero w) + HERO_SIZE + 10;
       Letter.y := Hero.y (hero w) + HERO_SIZE / 2 - LETTER_SIZE / 2;
       Letter.width := LETTER_SIZE;
       Letter.height := LETTER_SIZE;
       Letter.speed := 8 |} in
  set_letters (letters w ++ [letter]) w.

Definition spawnEnemy (w : World) : World :=
  let '(r, w) := Math_random w in
  let spawnX := cameraX w + Canvas.width canvas + r * 600 in
  let enemy :=
    {| Box.x := spawnX;
       Box.y := Canvas.height canvas - GROUND_HEIGHT - ENEMY_SIZE;
       Box.width := ENEMY_SIZE;
       Box.height := ENEMY_SIZE |} in
  set_enemies (enemies w ++ [enemy]) w.

Definition spawnEnvelope (w : World) : World :=
  let '(r, w) := Math_random w in
  let spawnX := cameraX w + Canvas.width canvas + r * 400 in
  let '(r', w) := Math_random w in
  let env :=
    {| Box.x := spawnX;
       Box.y := Canvas.height canvas - GROUND_HEIGHT - ITEM_SIZE - r' * 120;
       Box.width := ITEM_SIZE;
       Box.height := ITEM_SIZE |} in
  set_envelopes (envelopes w ++ [env]) w.

(** The [keydown] listener. *)
Definition keydown (code : String.string) (w : World) : World :=
  let w :=
    if negb (gameOver w) && (String.eqb code "Space"%string || String.eqb code "ArrowUp"%string)
    then
      if Hero.onGround (hero w)
      then set_hero (Hero.set_onGround false (Hero.set_vy JUMP_VELOCITY (hero w))) w
      else w
    else w in
  if negb (gameOver w) && String.eqb code "KeyE"%string then shootLetter w else w.

(** *** The three entity loops of [update]

    Each loop runs its index from [length - 1] down to [0]; the functions
    below take the number [n] of indices still to visit, so that the body
    runs at index [n - 1]. *)

(** The inner loop over [letters], for the enemy at index [i] (already read
    into [enemy], with [enemyScreenX] computed).  Nothing is written before
    a hit, and a hit leaves the loop ([break]). *)
Fixpoint letters_scan (i : nat) (enemy : Box.t) (enemyScreenX : Q)
    (n : nat) (w : World) : option World :=
  match n with
  | O => Some w
  | S j =>
      letter ← letters w !! j;
      let letterScreenX := Letter.x letter - cameraX w in
      if rectIntersect letterScreenX (Letter.y letter) (Letter.width letter) (Letter.height letter)
                       enemyScreenX (Box.y enemy) (Box.width enemy) (Box.height enemy)
      then
        let w := set_enemies (delete i (enemies w)) w in
        let w := set_letters (delete j (letters w)) w in
        let w := set_hero (Hero.set_score (Hero.score (hero w) + 20)%Z (hero w)) w in
        Some w
      else letters_scan i enemy enemyScreenX j w
  end.

(** The body of the loop over [enemies], at index [i]. *)
Definition enemies_body (i : nat) (w : World) : option World :=
  enemy ← enemies w !! i;
  if Qltb (Box.x enemy - cameraX w + Box.width enemy) 0
  then Some (set_enemies (delete i (enemies w)) w)
  else
    let enemyScreenX := Box.x enemy - cameraX w in
    if rectIntersect (Hero.x (hero w)) (Hero.y (hero w)) HERO_SIZE HERO_SIZE
                     enemyScreenX (Box.y enemy) (Box.width enemy) (Box.height enemy)
    then
      let w := set_enemies (delete i (enemies w)) w in
      let w := set_hero (Hero.set_lives (Hero.lives (hero w) - 1)%Z (hero w)) w in
      let w := if (Hero.lives (hero w) <=? 0)%Z then set_gameOver true w else w in
      Some w
    else letters_scan i enemy enemyScreenX (length (letters w)) w.

Fixpoint enemies_loop (n : nat) (w : World) : option World :=
  match n with
  | O => Some w
  | S i => w ← enemies_body i w; enemies_loop i w
  end.

(** The body of the loop over [envelopes], at index [i]. *)
Definition envelopes_body (i : nat) (w : World) : option World :=
  env ← envelopes w !! i;
  if Qltb (Box.x env - cameraX w + Box.width env) 0
  then Some (set_envelopes (delete i (envelopes w)) w)
  else
    let envScreenX := Box.x env - cameraX w in
    if rectIntersect (Hero.x (hero w)) (Hero.y (hero w)) HERO_SIZE HERO_SIZE
                     envScreenX (Box.y env) (Box.width env) (Box.height env)
    then
      let w := set_envelopes (delete i (envelopes w)) w in
      Some (set_hero (Hero.set_score (Hero.score (hero w) + 10)%Z (hero w)) w)
    else Some w.

Fixpoint envelopes_loop (n : nat) (w : World) : option World :=
  match n with
  | O => Some w
  | S i => w ← envelopes_body i w; envelopes_loop i w
  end.

(** The body of the loop over [letters], at index [i]: the letter object is
    updated in place, then spliced out if it is past the margin. *)
Definition letters_body (i : nat) (w : World) : option World :=
  letter ← letters w !! i;
  let letter := Letter.set_x (Letter.x letter + Letter.speed letter) letter in
  let w := set_letters (<[i := letter]> (letters w)) w in
  if Qgtb (Letter.x letter - cameraX w) (Canvas.width canvas + 50)
  then Some (set_letters (delete i (letters w)) w)
  else Some w.

Fixpoint letters_loop (n : nat) (w : World) : option World :=
  match n with
  | O => Some w
  | S i => w ← letters_body i w; letters_loop i w
  end.

(** *** The straight-line part of [update], block by block *)

(** [cameraX += WORLD_SPEED; hero.worldX += WORLD_SPEED]. *)
Definition advance_camera (w : World) : World :=
  let w := set_cameraX (cameraX w + WORLD_SPEED) w in
  set_hero (Hero.set_worldX (Hero.worldX (hero w) + WORLD_SPEED) (hero w)) w.

(** The ground line for the hero's [y], [groundY] in [update]. *)
Definition groundY : Q := Canvas.height canvas - GROUND_HEIGHT - HERO_SIZE.

(** "Update vertical physics". *)
Definition vertical_physics (w : World) : World :=
  let w := set_hero (Hero.set_vy (Hero.vy (hero w) + GRAVITY) (hero w)) w in
  let w := set_hero (Hero.set_y (Hero.y (hero w) + Hero.vy (hero w)) (hero w)) w in
  if Qgtb (Hero.y (hero w)) groundY
  then
    let w := set_hero (Hero.set_y groundY (hero w)) w in
    let w := set_hero (Hero.set_vy 0 (hero w)) w in
    set_hero (Hero.set_onGround true (hero w)) w
  else w.

(** "Update run animation". *)
Definition run_animation (dt : Q) (w : World) : World :=
  let w := set_hero (Hero.set_frameTimer (Hero.frameTimer (hero w) + dt) (hero w)) w in
  if Qgtb (Hero.frameTimer (hero w)) 0.15
  then
    let w := set_hero (Hero.set_frameTimer 0 (hero w)) w in
    set_hero (Hero.set_frameIndex (Z.rem (Hero.frameIndex (hero w) + 1) 2) (hero w)) w
  else w.

(** "Spawn enemies at intervals". *)
Definition spawn_enemies (dt : Q) (w : World) : World :=
  let w := set_enemySpawnTimer (enemySpawnTimer w + dt * 1000) w in
  let '(r, w) := Math_random w in
  if Qgtb (enemySpawnTimer w) (ENEMY_SPAWN_BASE + r * 1000)
  then spawnEnemy (set_enemySpawnTimer 0 w)
  else w.

(** "Spawn envelopes at intervals". *)
Definition spawn_envelopes (dt : Q) (w : World) : World :=
  let w := set_envelopeSpawnTimer (envelopeSpawnTimer w + dt * 1000) w in
  let '(r, w) := Math_random w in
  if Qgtb (envelopeSpawnTimer w) (ENVELOPE_SPAWN_BASE + r * 800)
  then spawnEnvelope (set_envelopeSpawnTimer 0 w)
  else w.

(** [update(dt)]. *)
Definition update (dt : Q) (w : World) : option World :=
  if gameOver w then Some w
  else
    let w := advance_camera w in
    let w := vertical_physics w in
    let w := run_animation dt w in
    let w := spawn_enemies dt w in
    let w := spawn_envelopes dt w in
    w ← enemies_loop (length (enemies w)) w;
    w ← envelopes_loop (length (envelopes w)) w;
    letters_loop (length (letters w)) w.

(** [gameLoop(timestamp)], without the drawing and the rescheduling. *)
Definition gameLoop (timestamp : Q) (w : World) : option World :=
  let dt := (timestamp - lastTime w) / 1000 in
  let w := set_lastTime timestamp w in
  update dt w.

(** The states the running page can be in: the script's initial state, then
    any interleaving of animation frames (timestamps do not go back) and
    key presses. *)
Inductive reachable : World -> Prop :=
  | reachable_initial ts : reachable (initial ts)
  | reachable_frame w ts w' :
      reachable w -> lastTime w <= ts -> gameLoop ts w = Some w' -> reachable w'
  | reachable_keydown w code :
      reachable w -> reachable (keydown code w).

(** A run of frames at the given timestamps. *)
Fixpoint frames (tss : list Q) (w : World) : option World :=
  match tss with
  | [] => Some w
  | ts :: tss => w ← gameLoop ts w; frames tss w
  end.

(** *** What the loops compute

    The three loops visit their array from the last index to the first and
    only ever splice at the index they are visiting, so each is a right fold
    over the array as it was on entry.  The definitions below say what such a
    fold does with one element; that the loops compute exactly this is
    proved further down ([enemies_loop_sweep] and its siblings). *)

(** The off-screen test of the enemy and envelope loops. *)
Definition off_left (cam : Q) (b : Box.t) : bool :=
  Qltb (Box.x b - cam + Box.width b) 0.

(** The overlap test against the hero, as both loops call it. *)
Definition hits_hero (w : World) (b : Box.t) : bool :=
  rectIntersect (Hero.x (hero w)) (Hero.y (hero w)) HERO_SIZE HERO_SIZE
                (Box.x b - cameraX w) (Box.y b) (Box.width b) (Box.height b).

(** The overlap test of a letter against an enemy. *)
Definition hits_letter (cam : Q) (enemy : Box.t) (letter : Letter.t) : bool :=
  rectIntersect (Letter.x letter - cam) (Letter.y letter)
                (Letter.width letter) (Letter.height letter)
                (Box.x enemy - cam) (Box.y enemy) (Box.width enemy) (Box.height enemy).

(** The off-screen test of the letter loop. *)
Definition off_right (cam : Q) (l : Letter.t) : bool :=
  Qgtb (Letter.x l - cam) (Canvas.width canvas + 50).

(** The highest index of a letter overlapping [enemy], if any: where the
    downward scan stops. *)
Fixpoint last_hit (cam : Q) (enemy : Box.t) (ls : list Letter.t) : option nat :=
  match ls with
  | [] => None
  | l :: ls =>
      match last_hit cam enemy ls with
      | Some j => Some (S j)
      | None => if hits_letter cam enemy l then Some O else None
      end
  end.

(** A hit on the hero: one life less, and game over at zero or below. *)
Definition damage (w : World) : World :=
  let w := set_hero (Hero.set_lives (Hero.lives (hero w) - 1)%Z (hero w)) w in
  if (Hero.lives (hero w) <=? 0)%Z then set_gameOver true w else w.

Definition award (points : Z) (w : World) : World :=
  set_hero (Hero.set_score (Hero.score (hero w) + points)%Z (hero w)) w.

(** The state after letter [j] has hit the enemy at index [i]. *)
Definition kill (i j : nat) (w : World) : World :=
  award 20 (set_letters (delete j (letters w)) (set_enemies (delete i (enemies w)) w)).

(** One enemy, met by a state whose [enemies] are the ones kept so far. *)
Definition enemy_step (enemy : Box.t) (w : World) : World :=
  if off_left (cameraX w) enemy then w
  else if hits_hero w enemy then damage w
  else
    match last_hit (cameraX w) enemy (letters w) with
    | Some j => award 20 (set_letters (delete j (letters w)) w)
    | None => set_enemies (enemy :: enemies w) w
    end.

Definition enemies_sweep (w : World) : World :=
  fold_right enemy_step (set_enemies [] w) (enemies w).

Definition envelope_step (env : Box.t) (w : World) : World :=
  if off_left (cameraX w) env then w
  else if hits_hero w env then award 10 w
  else set_envelopes (env :: envelopes w) w.

Definition envelopes_sweep (w : World) : World :=
  fold_right envelope_step (set_envelopes [] w) (envelopes w).

Definition fly (l : Letter.t) : Letter.t :=
  Letter.set_x (Letter.x l + Letter.speed l) l.

Definition letter_step (l : Letter.t) (w : World) : World :=
  if off_right (cameraX w) (fly l) then w
  else set_letters (fly l :: letters w) w.

Definition letters_sweep (w : World) : World :=
  fold_right letter_step (set_letters [] w) (letters w).

(** The state on entry to the enemy loop. *)
Definition before_loops (dt : Q) (w : World) : World :=
  spawn_envelopes dt (spawn_enemies dt (run_animation dt (vertical_physics (advance_camera w)))).

(** One call of [update], as a total function. *)
Definition tick (dt : Q) (w : World) : World :=
  if gameOver w then w
  else letters_sweep (envelopes_sweep (enemies_sweep (before_loops dt w))).

(** Consecutive calls of [update]. *)
Fixpoint updates (dts : list Q) (w : World) : option World :=
  match dts with
  | [] => Some w
  | dt :: dts => w ← update dt w; updates dts w
  end.

End Game.

(** ** The pixel loop of [removeDarkBackground]

    [removeDarkBackground(img, threshold)] draws the image on a canvas,
    reads its RGBA bytes, runs the loop below on them and writes them back.
    Only the loop is modelled.  [pixels] is [data.data], a
    [Uint8ClampedArray]: a read out of range gives [undefined], which is not
    less than any number, and a write out of range is dropped ([<[i := v]>]
    does the same). *)

(** [v < threshold] for a byte read from the array. *)
Definition below (v : option Z) (threshold : Q) : bool :=
  match v with
  | Some v => Qltb (inject_Z v) threshold
  | None => false
  end.

(** [for (let i = ...; i < pixels.length; i += 4)], entered at index [i];
    [fuel] bounds the number of iterations. *)
Fixpoint pixel_loop (threshold : Q) (fuel i : nat) (pixels : list Z) : list Z :=
  match fuel with
  | O => pixels
  | S fuel =>
      if (i <? length pixels)%nat
      then
        let r := pixels !! i in
        let g := pixels !! (i + 1)%nat in
        let b := pixels !! (i + 2)%nat in
        let pixels :=
          if below r threshold && below g threshold && below b threshold
          then <[(i + 3)%nat := 0%Z]> pixels
          else pixels in
        pixel_loop threshold fuel (i + 4) pixels
      else pixels
  end.

(** The loop from index 0; one unit of fuel per byte is more than it can
    use ([pixel_loop_stops_by_itself] below). *)
Definition removeDarkBackground_pixels (threshold : Q) (pixels : list Z) : list Z :=
  pixel_loop threshold (length pixels) 0 pixels.

(** Pixel number [j] of [pixels] has its three colour bytes below the
    threshold. *)
Definition is_dark (threshold : Q) (pixels : list Z) (j : nat) : bool :=
  below (pixels !! (4 * j)%nat) threshold &&
  below (pixels !! (4 * j + 1)%nat) threshold &&
  below (pixels !! (4 * j + 2)%nat) threshold.

(** ** The background of [draw]

    Of [draw] only the placement of the background is modelled: the three
    [ctx.drawImage(bg, x, 0, bgWidthScaled, canvas.height)] calls, each as
    the rectangle [(x, y, width, height)] it paints.  The size of the
    background image comes from the asset. *)

Module Image.
Record t : Type := mk { width : Q; height : Q }.
End Image.

(** JavaScript [a % b] on numbers, for [b] other than 0: [a] minus [b]
    times the quotient [a / b] rounded toward zero. *)
Definition Qrem (a b : Q) : Q :=
  let quotient := a / b in
  a - b * inject_Z (if Qle_bool 0 quotient then Qfloor quotient else Qceiling quotient).

Definition draw_background (canvas : Canvas.t) (bg : Image.t) (w : World)
    : list (Q * Q * Q * Q) :=
  let bgScaleY := Canvas.height canvas / Image.height bg in
  let bgWidthScaled := Image.width bg * bgScaleY in
  let offset := - Qrem (cameraX w) bgWidthScaled in
  map (fun i : Q => (offset + i * bgWidthScaled, 0, bgWidthScaled, Canvas.height canvas))
      [0; 1; 2].

(** ** Vocabulary of the statements *)

(** [w'] differs from [w] at most in the six fields the loops write:
    lives, score, [gameOver] and the three arrays. *)
Definition loops_frame (w w' : World) : Prop :=
  cameraX w' = cameraX w /\
  lastTime w' = lastTime w /\
  enemySpawnTimer w' = enemySpawnTimer w /\
  envelopeSpawnTimer w' = envelopeSpawnTimer w /\
  randomCalls w' = randomCalls w /\
  Hero.worldX (hero w') = Hero.worldX (hero w) /\
  Hero.x (hero w') = Hero.x (hero w) /\
  Hero.y (hero w') = Hero.y (hero w) /\
  Hero.vy (hero w') = Hero.vy (hero w) /\
  Hero.onGround (hero w') = Hero.onGround (hero w) /\
  Hero.frameIndex (hero w') = Hero.frameIndex (hero w) /\
  Hero.frameTimer (hero w') = Hero.frameTimer (hero w).

(** The hero's [y] after this tick's integration and before the ground
    test: [hero.y + (hero.vy + GRAVITY)]. *)
Definition integrated_y (w : World) : Q :=
  Hero.y (hero w) + (Hero.vy (hero w) + GRAVITY).

(** The length of the intersection of the intervals [[lo1, lo1 + len1]]
    and [[lo2, lo2 + len2]] (negative when they are apart). *)
Definition overlap (lo1 len1 lo2 len2 : Q) : Q :=
  Qmin (lo1 + len1) (lo2 + len2) - Qmax lo1 lo2.



(** [w1] and [w2] agree on everything except the animation timer and phase
    and the two spawn accumulators. *)
Definition same_but_timers (w1 w2 : World) : Prop :=
  cameraX w1 = cameraX w2 /\
  lastTime w1 = lastTime w2 /\
  gameOver w1 = gameOver w2 /\
  enemies w1 = enemies w2 /\
  envelopes w1 = envelopes w2 /\
  letters w1 = letters w2 /\
  randomCalls w1 = randomCalls w2 /\
  Hero.worldX (hero w1) = Hero.worldX (hero w2) /\
  Hero.x (hero w1) = Hero.x (hero w2) /\
  Hero.y (hero w1) = Hero.y (hero w2) /\
  Hero.vy (hero w1) = Hero.vy (hero w2) /\
  Hero.onGround (hero w1) = Hero.onGround (hero w2) /\
  Hero.lives (hero w1) = Hero.lives (hero w2) /\
  Hero.score (hero w1) = Hero.score (hero w2).


(** No enemy and no envelope lies entirely left of the canvas, and no letter
    is more than the 50-pixel margin past its right edge. *)
Definition in_play (canvas : Canvas.t) (w : World) : Prop :=
  Forall (fun b => ~ Box.x b - cameraX w + Box.width b < 0) (enemies w) /\
  Forall (fun b => ~ Box.x b - cameraX w + Box.width b < 0) (envelopes w) /\
  Forall (fun l => ~ Canvas.width canvas + 50 < Letter.x l - cameraX w) (letters w).

(** The enemy loop finds [b] overlapping the hero: [b] passes the
    off-screen test and the overlap test against the hero is true. *)
Definition on_hero (w : World) (b : Box.t) : bool :=
  negb (off_left (cameraX w) b) && hits_hero w b.

(** [w] and [w'] look the same to the enemy loop, lives and [gameOver]
    apart: same camera, same hero rectangle, same enemies, letters and
    score. *)
Definition same_fight (w w' : World) : Prop :=
  cameraX w' = cameraX w /\
  Hero.x (hero w') = Hero.x (hero w) /\
  Hero.y (hero w') = Hero.y (hero w) /\
  enemies w' = enemies w /\
  letters w' = letters w /\
  Hero.score (hero w') = Hero.score (hero w).

(** What holds of both counters in every state the page can be in: the
    score is not negative, and the game is over exactly when no life is
    left. *)
Definition counters_ok (w : World) : Prop :=
  (0 <= Hero.score (hero w))%Z /\
  (gameOver w = false <-> (1 <= Hero.lives (hero w))%Z).

(** An envelope or enemy the loops keep when no letter is involved: it
    passes the off-screen test and does not overlap the hero. *)
Definition stays (w : World) (b : Box.t) : bool :=
  negb (off_left (cameraX w) b) && negb (hits_hero w b).

(** The hero between ticks: its screen [x] is 100, its world [x] is the
    camera offset, it is not below the ground line, and while [onGround] is
    set it stands on the line with no vertical velocity. *)
Definition hero_ok (canvas : Canvas.t) (w : World) : Prop :=
  Hero.x (hero w) = 100 /\
  Hero.worldX (hero w) = cameraX w /\
  0 <= cameraX w /\
  Hero.y (hero w) <= Canvas.height canvas - GROUND_HEIGHT - HERO_SIZE /\
  (Hero.onGround (hero w) = true ->
   Hero.y (hero w) = Canvas.height canvas - GROUND_HEIGHT - HERO_SIZE /\
   Hero.vy (hero w) = 0).






(** The hero's vertical state: [(hero.y, hero.vy, hero.onGround)]. *)
Definition kinematics (w : World) : Q * Q * bool :=
  (Hero.y (hero w), Hero.vy (hero w), Hero.onGround (hero w)).

(** What "Update vertical physics" does to the vertical state. *)
Definition fall (canvas : Canvas.t) (k : Q * Q * bool) : Q * Q * bool :=
  let '(y, vy, onGround) := k in
  let vy := vy + GRAVITY in
  let y := y + vy in
  if Qgtb y (Canvas.height canvas - GROUND_HEIGHT - HERO_SIZE)
  then (Canvas.height canvas - GROUND_HEIGHT - HERO_SIZE, 0, true)
  else (y, vy, onGround).

(** How far above the ground line the hero is [k] ticks after a jump:
    [12 k - k (k + 1) / 4]. *)
Definition jump_height (k : nat) : Q :=
  12 * inject_Z (Z.of_nat k) -
  inject_Z (Z.of_nat k) * (inject_Z (Z.of_nat k) + 1) / 4.

(** Timestamps that do not go back, starting from [t0]. *)
Fixpoint chronological (t0 : Q) (tss : list Q) : bool :=
  match tss with
  | [] => true
  | ts :: tss => Qle_bool t0 ts && chronological ts tss
  end.

(** ** Concrete runs used as examples *)

Definition canvas800 : Canvas.t := Canvas.mk 800 400.

(** An oracle that always answers 0. *)
Definition zero_oracle : nat -> Q := fun _ => 0.

(** One frame every [period] milliseconds: the timestamps of frames
    [1 .. n] after a start at time 0. *)
Definition stamps (period : Z) (n : nat) : list Q :=
  map (fun k => inject_Z (period * Z.of_nat k)) (seq 1 n).

(** An oracle that answers 0.55 to calls 221 and 669 and 0 to all others.
    In a run of frames 32 ms apart from the start state these two calls are
    the forward offsets of the first and of the third enemy. *)
Definition twin_oracle : nat -> Q :=
  fun k => if ((k =? 221) || (k =? 669))%nat then 0.55 else 0.

(** The start state with an enemy on the hero and a letter on that enemy. *)
Definition ambush : World :=
  set_letters [Letter.mk 140 270 20 20 8]
    (set_enemies [Box.mk 150 240 80 80] (initial canvas800 0)).

(** The start state with two enemies at the same place, clear of the hero,
    and one letter on both of them. *)
Definition two_for_one : World :=
  set_letters [Letter.mk 390 270 20 20 8]
    (set_enemies [Box.mk 400 240 80 80; Box.mk 400 240 80 80] (initial canvas800 0)).

(** * Properties *)

(** ** Comparisons *)

Lemma Qltb_lt (a b : Q) : Qltb a b = true <-> a < b.
Proof. unfold Qltb, Qlt. apply Z.ltb_lt. Qed.

Lemma Qltb_ge (a b : Q) : Qltb a b = false <-> b <= a.
Proof. unfold Qltb, Qle. rewrite Z.ltb_ge. reflexivity. Qed.

Lemma Qgtb_gt (a b : Q) : Qgtb a b = true <-> b < a.
Proof. apply Qltb_lt. Qed.

Lemma Qgtb_le (a b : Q) : Qgtb a b = false <-> a <= b.
Proof. apply Qltb_ge. Qed.

#[export] Instance Qltb_proper : Proper (Qeq ==> Qeq ==> eq) Qltb.
Proof.
  intros a a' Ha b b' Hb.
  destruct (Qltb a b) eqn:E, (Qltb a' b') eqn:E'; try reflexivity.
  - apply Qltb_lt in E. apply Qltb_ge in E'. rewrite Ha, Hb in E. lra.
  - apply Qltb_ge in E. apply Qltb_lt in E'. rewrite Ha, Hb in E. lra.
Qed.

(** ** The loops are the folds *)

Section Loops.

Variable canvas : Canvas.t.

Lemma last_hit_snoc cam enemy ls l :
  last_hit cam enemy (ls ++ [l]) =
  if hits_letter cam enemy l then Some (length ls) else last_hit cam enemy ls.
Proof.
  induction ls as [|l0 ls IH]; simpl.
  - reflexivity.
  - rewrite IH. destruct (hits_letter cam enemy l); [reflexivity|].
    reflexivity.
Qed.

Lemma last_hit_lt cam enemy ls j :
  last_hit cam enemy ls = Some j -> (j < length ls)%nat.
Proof.
  revert j. induction ls as [|l ls IH]; simpl; intros j H; [discriminate|].
  destruct (last_hit cam enemy ls) as [k|].
  - injection H as <-. specialize (IH k eq_refl). lia.
  - destruct (hits_letter cam enemy l); [|discriminate].
    injection H as <-. lia.
Qed.

(** The downward scan stops at the highest overlapping letter below [n]. *)
Lemma letters_scan_last_hit i enemy n w :
  (n <= length (letters w))%nat ->
  letters_scan i enemy (Box.x enemy - cameraX w) n w =
  Some match last_hit (cameraX w) enemy (take n (letters w)) with
       | Some j => kill i j w
       | None => w
       end.
Proof.
  induction n as [|j IH]; intros Hn.
  - rewrite take_0. reflexivity.
  - destruct (lookup_lt_is_Some_2 (letters w) j) as [l Hl]; [lia|].
    simpl. rewrite Hl. simpl.
    rewrite (take_S_r _ _ _ Hl), last_hit_snoc.
    rewrite length_take, Nat.min_l by lia.
    fold (hits_letter (cameraX w) enemy l).
    destruct (hits_letter (cameraX w) enemy l); [reflexivity|].
    apply IH. lia.
Qed.

Lemma enemies_loop_fold pre : forall post w,
  enemies w = pre ++ post ->
  enemies_loop (length pre) w = Some (fold_right enemy_step (set_enemies post w) pre).
Proof.
  induction pre as [|enemy pre IH] using rev_ind; intros post w Hw.
  - simpl in *. subst post. destruct w; reflexivity.
  - rewrite length_app, Nat.add_comm. simpl.
    rewrite fold_right_app. simpl.
    rewrite <- app_assoc in Hw. simpl in Hw.
    unfold enemies_body.
    rewrite Hw, list_lookup_middle by reflexivity. simpl.
    rewrite delete_middle.
    unfold enemy_step at 2. unfold off_left, hits_hero. simpl.
    destruct (Qltb (Box.x enemy - cameraX w + Box.width enemy) 0).
    { simpl. rewrite (IH post) by reflexivity. reflexivity. }
    destruct (rectIntersect _ _ _ _ _ _ _ _).
    { simpl. rewrite (IH post).
      - f_equal. f_equal. unfold damage. simpl.
        destruct (Hero.lives (hero w) - 1 <=? 0)%Z; reflexivity.
      - destruct (Hero.lives (hero w) - 1 <=? 0)%Z; reflexivity. }
    rewrite letters_scan_last_hit by reflexivity.
    rewrite firstn_all. simpl.
    destruct (last_hit (cameraX w) enemy (letters w)) as [j|].
    + rewrite (IH post).
      * unfold kill. rewrite Hw, delete_middle. reflexivity.
      * unfold kill. simpl. rewrite Hw, delete_middle. reflexivity.
    + rewrite (IH (enemy :: post)) by exact Hw. reflexivity.
Qed.

Lemma enemies_loop_sweep w :
  enemies_loop (length (enemies w)) w = Some (enemies_sweep w).
Proof.
  unfold enemies_sweep. apply enemies_loop_fold. symmetry. apply app_nil_r.
Qed.

Lemma envelopes_loop_fold pre : forall post w,
  envelopes w = pre ++ post ->
  envelopes_loop (length pre) w =
  Some (fold_right envelope_step (set_envelopes post w) pre).
Proof.
  induction pre as [|env pre IH] using rev_ind; intros post w Hw.
  - simpl in *. subst post. destruct w; reflexivity.
  - rewrite length_app, Nat.add_comm. simpl.
    rewrite fold_right_app. simpl.
    rewrite <- app_assoc in Hw. simpl in Hw.
    unfold envelopes_body.
    rewrite Hw, list_lookup_middle by reflexivity. simpl.
    rewrite delete_middle.
    unfold envelope_step at 2. unfold off_left, hits_hero. simpl.
    destruct (Qltb (Box.x env - cameraX w + Box.width env) 0).
    { simpl. rewrite (IH post) by reflexivity. reflexivity. }
    destruct (rectIntersect _ _ _ _ _ _ _ _); simpl.
    + rewrite (IH post) by reflexivity. reflexivity.
    + rewrite (IH (env :: post)) by exact Hw. reflexivity.
Qed.

Lemma envelopes_loop_sweep w :
  envelopes_loop (length (envelopes w)) w = Some (envelopes_sweep w).
Proof.
  unfold envelopes_sweep. apply envelopes_loop_fold. symmetry. apply app_nil_r.
Qed.

Lemma insert_middle {A} (l1 l2 : list A) (x y : A) :
  <[length l1 := y]> (l1 ++ x :: l2) = l1 ++ y :: l2.
Proof.
  rewrite insert_app_r_alt by lia. rewrite Nat.sub_diag. reflexivity.
Qed.

Lemma letters_loop_fold pre : forall post w,
  letters w = pre ++ post ->
  letters_loop canvas (length pre) w =
  Some (fold_right (letter_step canvas) (set_letters post w) pre).
Proof.
  induction pre as [|l pre IH] using rev_ind; intros post w Hw.
  - simpl in *. subst post. destruct w; reflexivity.
  - rewrite length_app, Nat.add_comm. simpl.
    rewrite fold_right_app. simpl.
    rewrite <- app_assoc in Hw. simpl in Hw.
    unfold letters_body.
    rewrite Hw, list_lookup_middle by reflexivity. simpl.
    rewrite insert_middle, delete_middle.
    unfold letter_step at 2. unfold off_right, fly. simpl.
    destruct (Qgtb _ _); simpl.
    + rewrite (IH post) by reflexivity. reflexivity.
    + rewrite (IH (_ :: post)) by reflexivity. reflexivity.
Qed.

Lemma letters_loop_sweep w :
  letters_loop canvas (length (letters w)) w = Some (letters_sweep canvas w).
Proof.
  unfold letters_sweep. apply letters_loop_fold. symmetry. apply app_nil_r.
Qed.

Variable oracle : nat -> Q.

(** [update] never throws, and computes [tick]. *)
Lemma update_tick dt w : update canvas oracle dt w = Some (tick canvas oracle dt w).
Proof.
  unfold update, tick. destruct (gameOver w); [reflexivity|].
  fold (before_loops canvas oracle dt w).
  rewrite enemies_loop_sweep. simpl.
  rewrite envelopes_loop_sweep. simpl.
  apply letters_loop_sweep.
Qed.

Lemma updates_app dts1 dts2 w :
  updates canvas oracle (dts1 ++ dts2) w =
  w' ← updates canvas oracle dts1 w; updates canvas oracle dts2 w'.
Proof.
  revert w. induction dts1 as [|dt dts1 IH]; intros w; simpl; [reflexivity|].
  rewrite update_tick. simpl. apply IH.
Qed.

End Loops.

(** ** What the loops leave alone *)

Lemma loops_frame_refl w : loops_frame w w.
Proof. repeat split. Qed.

Lemma loops_frame_trans w1 w2 w3 :
  loops_frame w1 w2 -> loops_frame w2 w3 -> loops_frame w1 w3.
Proof.
  unfold loops_frame. intros H12 H23.
  decompose [and] H12. decompose [and] H23.
  repeat split; congruence.
Qed.

Lemma fold_right_invariant {A B} (f : A -> B -> B) (P : B -> Prop) l b :
  P b -> (forall a b, P b -> P (f a b)) -> P (fold_right f b l).
Proof. intros Hb Hf. induction l; simpl; auto. Qed.

Lemma damage_frame w : loops_frame w (damage w).
Proof.
  unfold damage. simpl.
  destruct (Hero.lives (hero w) - 1 <=? 0)%Z; repeat split.
Qed.

Lemma enemy_step_frame enemy w : loops_frame w (enemy_step enemy w).
Proof.
  unfold enemy_step.
  destruct (off_left _ _); [apply loops_frame_refl|].
  destruct (hits_hero _ _); [apply damage_frame|].
  destruct (last_hit _ _ _); repeat split.
Qed.

Lemma envelope_step_frame env w : loops_frame w (envelope_step env w).
Proof.
  unfold envelope_step.
  destruct (off_left _ _); [apply loops_frame_refl|].
  destruct (hits_hero _ _); repeat split.
Qed.

Lemma letter_step_frame canvas l w : loops_frame w (letter_step canvas l w).
Proof.
  unfold letter_step. destruct (off_right _ _ _); repeat split.
Qed.

Lemma enemies_sweep_frame w : loops_frame w (enemies_sweep w).
Proof.
  unfold enemies_sweep.
  apply (fold_right_invariant _ (loops_frame w)); [repeat split|].
  intros a b Hb. eapply loops_frame_trans; [exact Hb|apply enemy_step_frame].
Qed.

Lemma envelopes_sweep_frame w : loops_frame w (envelopes_sweep w).
Proof.
  unfold envelopes_sweep.
  apply (fold_right_invariant _ (loops_frame w)); [repeat split|].
  intros a b Hb. eapply loops_frame_trans; [exact Hb|apply envelope_step_frame].
Qed.

Lemma letters_sweep_frame canvas w : loops_frame w (letters_sweep canvas w).
Proof.
  unfold letters_sweep.
  apply (fold_right_invariant _ (loops_frame w)); [repeat split|].
  intros a b Hb. eapply loops_frame_trans; [exact Hb|apply letter_step_frame].
Qed.

Lemma sweeps_frame canvas w :
  loops_frame w (letters_sweep canvas (envelopes_sweep (enemies_sweep w))).
Proof.
  eapply loops_frame_trans; [apply enemies_sweep_frame|].
  eapply loops_frame_trans; [apply envelopes_sweep_frame|].
  apply letters_sweep_frame.
Qed.

(** ** The straight-line part *)

(** Reduction of field reads over field writes, leaving arithmetic alone. *)
Ltac fields :=
  cbv beta iota zeta delta
      [hero cameraX lastTime gameOver enemies envelopes letters
       enemySpawnTimer envelopeSpawnTimer randomCalls
       set_hero set_cameraX set_lastTime set_gameOver set_enemies set_envelopes
       set_letters set_enemySpawnTimer set_envelopeSpawnTimer set_randomCalls
       Hero.worldX Hero.x Hero.y Hero.vy Hero.onGround Hero.frameIndex
       Hero.frameTimer Hero.lives Hero.score
       Hero.set_worldX Hero.set_y Hero.set_vy Hero.set_onGround
       Hero.set_frameIndex Hero.set_frameTimer Hero.set_lives Hero.set_score].

(** The same, but a read that meets no write is left as it is. *)
Ltac reads :=
  cbn [hero cameraX lastTime gameOver enemies envelopes letters
       enemySpawnTimer envelopeSpawnTimer randomCalls
       set_hero set_cameraX set_lastTime set_gameOver set_enemies set_envelopes
       set_letters set_enemySpawnTimer set_envelopeSpawnTimer set_randomCalls
       Hero.worldX Hero.x Hero.y Hero.vy Hero.onGround Hero.frameIndex
       Hero.frameTimer Hero.lives Hero.score
       Hero.set_worldX Hero.set_y Hero.set_vy Hero.set_onGround
       Hero.set_frameIndex Hero.set_frameTimer Hero.set_lives Hero.set_score].

Ltac split_ifs :=
  repeat match goal with
         | |- context [if ?c then _ else _] => destruct c eqn:?
         end.

(** Replace a state by its fields. *)
Ltac by_fields w :=
  let h := fresh "h" in
  destruct w as [h ? ? ? ? ? ? ? ? ?]; destruct h.

(** Run the straight-line blocks one after the other on a state given field
    by field, deciding each block's test before entering the next block. *)
Ltac run_blocks w :=
  by_fields w;
  unfold before_loops;
  unfold advance_camera; fields;
  unfold vertical_physics; fields; split_ifs;
  unfold run_animation; fields; split_ifs;
  unfold spawn_enemies, spawnEnemy, Math_random; fields; split_ifs;
  unfold spawn_envelopes, spawnEnvelope, Math_random; fields; split_ifs.

Section Blocks.

Variable canvas : Canvas.t.
Variable oracle : nat -> Q.

Lemma before_loops_cameraX dt w :
  cameraX (before_loops canvas oracle dt w) = cameraX w + WORLD_SPEED.
Proof. run_blocks w; reflexivity. Qed.

Lemma before_loops_worldX dt w :
  Hero.worldX (hero (before_loops canvas oracle dt w)) =
  Hero.worldX (hero w) + WORLD_SPEED.
Proof. run_blocks w; reflexivity. Qed.

Lemma before_loops_x dt w :
  Hero.x (hero (before_loops canvas oracle dt w)) = Hero.x (hero w).
Proof. run_blocks w; reflexivity. Qed.

Lemma before_loops_y dt w :
  Hero.y (hero (before_loops canvas oracle dt w)) =
  Hero.y (hero (vertical_physics canvas w)).
Proof. run_blocks w; reflexivity. Qed.

Lemma before_loops_vy dt w :
  Hero.vy (hero (before_loops canvas oracle dt w)) =
  Hero.vy (hero (vertical_physics canvas w)).
Proof. run_blocks w; reflexivity. Qed.

Lemma before_loops_onGround dt w :
  Hero.onGround (hero (before_loops canvas oracle dt w)) =
  Hero.onGround (hero (vertical_physics canvas w)).
Proof. run_blocks w; reflexivity. Qed.

Lemma before_loops_gameOver dt w :
  gameOver (before_loops canvas oracle dt w) = gameOver w.
Proof. run_blocks w; reflexivity. Qed.

Lemma tick_frame dt w :
  gameOver w = false ->
  loops_frame (before_loops canvas oracle dt w) (tick canvas oracle dt w).
Proof. intros Hlive. unfold tick. rewrite Hlive. apply sweeps_frame. Qed.

End Blocks.

(** ** Runs of frames *)

Section Runs.

Variable canvas : Canvas.t.
Variable oracle : nat -> Q.

Lemma before_loops_lastTime dt w :
  lastTime (before_loops canvas oracle dt w) = lastTime w.
Proof. run_blocks w; reflexivity. Qed.

Lemma tick_lastTime dt w : lastTime (tick canvas oracle dt w) = lastTime w.
Proof.
  destruct (gameOver w) eqn:Hover.
  - unfold tick. rewrite Hover. reflexivity.
  - destruct (tick_frame canvas oracle dt w Hover) as (_ & -> & _).
    apply before_loops_lastTime.
Qed.

Lemma gameLoop_tick ts w :
  gameLoop canvas oracle ts w =
  Some (tick canvas oracle ((ts - lastTime w) / 1000) (set_lastTime ts w)).
Proof. unfold gameLoop. apply update_tick. Qed.

Lemma gameLoop_lastTime ts w w' :
  gameLoop canvas oracle ts w = Some w' -> lastTime w' = ts.
Proof.
  rewrite gameLoop_tick. intros [= <-]. rewrite tick_lastTime. reflexivity.
Qed.

(** A chronological run of frames stays among the reachable states. *)
Lemma frames_reachable tss : forall w w',
  reachable canvas oracle w ->
  chronological (lastTime w) tss = true ->
  frames canvas oracle tss w = Some w' ->
  reachable canvas oracle w'.
Proof.
  induction tss as [|ts tss IH]; simpl; intros w w' Hw Hts Hrun.
  - injection Hrun as <-. exact Hw.
  - apply andb_true_iff in Hts as [Hle Hts].
    apply Qle_bool_iff in Hle.
    destruct (gameLoop canvas oracle ts w) as [w1|] eqn:Hstep; [|discriminate].
    simpl in Hrun.
    apply (IH w1 w'); [|rewrite (gameLoop_lastTime _ _ _ Hstep); exact Hts|exact Hrun].
    exact (reachable_frame canvas oracle w ts w1 Hw Hle Hstep).
Qed.

End Runs.

(** ** One tick *)

Section Tick.

Variable canvas : Canvas.t.
Variable oracle : nat -> Q.

(** C5.  A tick run while the game is not over adds [WORLD_SPEED] to both
    [cameraX] and [hero.worldX], so their difference is the same before and
    after; the hero's screen coordinate [hero.x] is not written at all. *)
Theorem camera_and_hero_advance_together dt w :
  gameOver w = false ->
  exists w', update canvas oracle dt w = Some w' /\
    cameraX w' = cameraX w + WORLD_SPEED /\
    Hero.worldX (hero w') = Hero.worldX (hero w) + WORLD_SPEED /\
    Hero.worldX (hero w') - cameraX w' == Hero.worldX (hero w) - cameraX w /\
    Hero.x (hero w') = Hero.x (hero w).
Proof.
  intros Hlive. exists (tick canvas oracle dt w).
  split; [apply update_tick|].
  destruct (tick_frame canvas oracle dt w Hlive) as (Hc & _ & _ & _ & _ & Hwx & Hx & _).
  rewrite Hc, Hwx, Hx.
  rewrite before_loops_cameraX, before_loops_worldX, before_loops_x.
  repeat split. ring.
Qed.

Lemma vertical_physics_cases w :
  (groundY canvas < integrated_y w ->
     Hero.y (hero (vertical_physics canvas w)) = groundY canvas /\
     Hero.vy (hero (vertical_physics canvas w)) = 0 /\
     Hero.onGround (hero (vertical_physics canvas w)) = true) /\
  (integrated_y w <= groundY canvas ->
     Hero.y (hero (vertical_physics canvas w)) = integrated_y w /\
     Hero.vy (hero (vertical_physics canvas w)) = Hero.vy (hero w) + GRAVITY /\
     Hero.onGround (hero (vertical_physics canvas w)) = Hero.onGround (hero w)).
Proof.
  by_fields w. unfold vertical_physics, integrated_y. fields.
  match goal with |- context [if ?c then _ else _] => destruct c eqn:E end.
  - apply Qgtb_gt in E. split; intros H; [repeat split|].
    exfalso. apply (Qlt_not_le _ _ E H).
  - apply Qgtb_le in E. split; intros H; [|repeat split].
    exfalso. apply (Qlt_not_le _ _ H E).
Qed.

(** C2, as amended.  In a tick run while the game is not over: if the
    integrated position is strictly below the ground line (greater [y]), the
    hero is put on the line, [vy] becomes 0 and [onGround] is set; if it is
    on the line or above it, position and velocity are kept as integrated
    and [onGround] is not written; either way [hero.y] does not exceed the
    line after the tick. *)
Theorem landing_clamps_strictly_past_ground_line dt w :
  gameOver w = false ->
  exists w', update canvas oracle dt w = Some w' /\
    (groundY canvas < integrated_y w ->
       Hero.y (hero w') = groundY canvas /\
       Hero.vy (hero w') = 0 /\
       Hero.onGround (hero w') = true) /\
    (integrated_y w <= groundY canvas ->
       Hero.y (hero w') = integrated_y w /\
       Hero.vy (hero w') = Hero.vy (hero w) + GRAVITY /\
       Hero.onGround (hero w') = Hero.onGround (hero w)) /\
    Hero.y (hero w') <= groundY canvas.
Proof.
  intros Hlive. exists (tick canvas oracle dt w).
  split; [apply update_tick|].
  destruct (tick_frame canvas oracle dt w Hlive) as (_ & _ & _ & _ & _ & _ & _ & Hy & Hvy & Hg & _).
  rewrite Hy, Hvy, Hg.
  rewrite before_loops_y, before_loops_vy, before_loops_onGround.
  destruct (vertical_physics_cases w) as [Hpast Hnot].
  split; [exact Hpast|]. split; [exact Hnot|].
  destruct (Qlt_le_dec (groundY canvas) (integrated_y w)) as [H|H].
  - destruct (Hpast H) as (-> & _). apply Qle_refl.
  - destruct (Hnot H) as (-> & _). exact H.
Qed.

(** C7.  Once [gameOver] is set, [update] returns the state it was given,
    whatever the elapsed time and however many times it is called. *)
Theorem game_over_freezes_the_state dts w :
  gameOver w = true ->
  updates canvas oracle dts w = Some w.
Proof.
  intros Hover. induction dts as [|dt dts IH]; simpl; [reflexivity|].
  unfold update at 1. rewrite Hover. simpl. exact IH.
Qed.

End Tick.

(** The first tick of a game on an 800 by 400 canvas. *)
Lemma camera_and_hero_advance_together_witness :
  exists w', update canvas800 zero_oracle 0.016 (initial canvas800 0) = Some w' /\
    cameraX w' = 0 + WORLD_SPEED /\
    Hero.worldX (hero w') = 0 + WORLD_SPEED /\
    Hero.worldX (hero w') - cameraX w' == 0 - 0 /\
    Hero.x (hero w') = 100.
Proof.
  apply (camera_and_hero_advance_together canvas800 zero_oracle 0.016
           (initial canvas800 0)).
  reflexivity.
Defined.

(** The first tick of a game: the hero stands on the ground line, gravity
    takes it half a pixel past it, and the clamp puts it back. *)
Lemma landing_clamps_strictly_past_ground_line_witness :
  gameOver (initial canvas800 0) = false /\
  exists w', update canvas800 zero_oracle 0.016 (initial canvas800 0) = Some w' /\
    (groundY canvas800 < integrated_y (initial canvas800 0) ->
       Hero.y (hero w') = groundY canvas800 /\
       Hero.vy (hero w') = 0 /\
       Hero.onGround (hero w') = true) /\
    (integrated_y (initial canvas800 0) <= groundY canvas800 ->
       Hero.y (hero w') = integrated_y (initial canvas800 0) /\
       Hero.vy (hero w') = 0 + GRAVITY /\
       Hero.onGround (hero w') = true) /\
    Hero.y (hero w') <= groundY canvas800.
Proof.
  split; [reflexivity|].
  apply (landing_clamps_strictly_past_ground_line canvas800 zero_oracle 0.016
           (initial canvas800 0)).
  reflexivity.
Defined.

(** C2, counterexample.  46 frames after a jump from the start position the
    hero is 11.5 above the ground line and falling at 11.  The next tick
    integrates to the ground line exactly; the test [hero.y > groundY] is
    false there, so the hero stays airborne with velocity 11.5 although its
    position is on the line. *)
Lemma landing_exactly_on_ground_line_is_not_clamped :
  exists w w',
    frames canvas800 zero_oracle (stamps 16 46)
      (keydown "Space" (initial canvas800 0)) = Some w /\
    reachable canvas800 zero_oracle w /\
    gameOver w = false /\
    update canvas800 zero_oracle 0.016 w = Some w' /\
    integrated_y w == groundY canvas800 /\
    Hero.y (hero w') == groundY canvas800 /\
    Hero.vy (hero w') == 11.5 /\
    ~ Hero.vy (hero w') == 0 /\
    Hero.onGround (hero w') = false.
Proof.
  assert (Hrun : exists w,
             frames canvas800 zero_oracle (stamps 16 46)
               (keydown "Space" (initial canvas800 0)) = Some w /\
             gameOver w = false /\
             exists w', update canvas800 zero_oracle 0.016 w = Some w' /\
               integrated_y w == groundY canvas800 /\
               Hero.y (hero w') == groundY canvas800 /\
               Hero.vy (hero w') == 11.5 /\
               Hero.onGround (hero w') = false).
  { eexists. split; [vm_compute; reflexivity|]. split; [reflexivity|].
    eexists. split; [vm_compute; reflexivity|].
    split; [vm_compute; reflexivity|]. split; [vm_compute; reflexivity|].
    split; [vm_compute; reflexivity|]. reflexivity. }
  destruct Hrun as (w & Hrun & Hlive & w' & Hupdate & Hint & Hy & Hvy & Hair).
  exists w, w'. split; [exact Hrun|]. split.
  { apply (frames_reachable canvas800 zero_oracle (stamps 16 46)
             (keydown "Space" (initial canvas800 0)) w).
    - apply reachable_keydown. apply reachable_initial.
    - vm_compute. reflexivity.
    - exact Hrun. }
  repeat (split; [assumption|]).
  split; [|exact Hair].
  intros H0. rewrite H0 in Hvy. vm_compute in Hvy. discriminate.
Qed.

(** C1, the failing run.  647 frames from the start state, 32 ms apart, no
    key pressed, random draws in [0, 1).  An enemy is spawned every 110
    frames; the first two are spawned at the same world [x] and so are the
    next two.  The first pair takes two lives in frame 427.  After frame 646
    one life is left and no enemy is on the hero yet.  In frame 647 the
    second pair reaches the hero: the first collision takes the last life
    and sets [gameOver], the loop goes on, and the second collision takes
    [hero.lives] to -1. *)
Theorem lives_negative_after_two_double_hits :
  (forall k, 0 <= twin_oracle k /\ twin_oracle k < 1) /\
  exists w646 w647,
    frames canvas800 twin_oracle (stamps 32 646) (initial canvas800 0) = Some w646 /\
    reachable canvas800 twin_oracle w646 /\
    gameOver w646 = false /\
    Hero.lives (hero w646) = 1%Z /\
    length (List.filter (on_hero w646) (enemies w646)) = 0%nat /\
    gameLoop canvas800 twin_oracle 20704 w646 = Some w647 /\
    frames canvas800 twin_oracle (stamps 32 647) (initial canvas800 0) = Some w647 /\
    reachable canvas800 twin_oracle w647 /\
    gameOver w647 = true /\
    Hero.lives (hero w647) = (-1)%Z.
Proof.
  split.
  { intros k. unfold twin_oracle.
    destruct ((k =? 221) || (k =? 669))%nat; split; reflexivity || discriminate. }
  assert (Hrun : exists w646 w647,
             frames canvas800 twin_oracle (stamps 32 646) (initial canvas800 0) = Some w646 /\
             gameOver w646 = false /\ Hero.lives (hero w646) = 1%Z /\
             length (List.filter (on_hero w646) (enemies w646)) = 0%nat /\
             gameLoop canvas800 twin_oracle 20704 w646 = Some w647 /\
             frames canvas800 twin_oracle (stamps 32 647) (initial canvas800 0) = Some w647 /\
             gameOver w647 = true /\ Hero.lives (hero w647) = (-1)%Z).
  { eexists. eexists. split; [vm_compute; reflexivity|].
    split; [reflexivity|]. split; [reflexivity|].
    split; [vm_compute; reflexivity|].
    split; [vm_compute; reflexivity|].
    split; [vm_compute; reflexivity|]. split; reflexivity. }
  destruct Hrun as (w646 & w647 & Hrun646 & Hlive & Hone & Hclear & Hupdate & Hrun647 &
                    Hover & Hlives).
  exists w646, w647.
  split; [exact Hrun646|]. split.
  { apply (frames_reachable canvas800 twin_oracle (stamps 32 646) (initial canvas800 0) w646).
    - apply reachable_initial.
    - vm_compute. reflexivity.
    - exact Hrun646. }
  repeat (split; [assumption|]).
  split; [|split; assumption].
  apply (frames_reachable canvas800 twin_oracle (stamps 32 647) (initial canvas800 0) w647).
  - apply reachable_initial.
  - vm_compute. reflexivity.
  - exact Hrun647.
Qed.

(** The state in which the run above ends, ticked three more times. *)
Lemma game_over_freezes_the_state_witness :
  exists w,
    frames canvas800 twin_oracle (stamps 32 647) (initial canvas800 0) = Some w /\
    gameOver w = true /\
    updates canvas800 twin_oracle [0.032; 5; 0] w = Some w.
Proof.
  eexists. split; [vm_compute; reflexivity|].
  split; [reflexivity|].
  apply (game_over_freezes_the_state canvas800 twin_oracle [0.032; 5; 0]).
  reflexivity.
Defined.

(** ** What the loops keep *)

Section Kept.

Variable canvas : Canvas.t.
Variable oracle : nat -> Q.

Lemma enemies_sweep_kept w :
  Forall (fun b => off_left (cameraX w) b = false) (enemies (enemies_sweep w)).
Proof.
  unfold enemies_sweep.
  apply (fold_right_invariant enemy_step
           (fun w' => cameraX w' = cameraX w /\
                      Forall (fun b => off_left (cameraX w) b = false) (enemies w'))).
  - split; [reflexivity|constructor].
  - intros enemy w' [Hcam Hall]. unfold enemy_step. rewrite Hcam.
    destruct (off_left (cameraX w) enemy) eqn:Hoff; [auto|].
    destruct (hits_hero w' enemy).
    { unfold damage. fields. destruct (_ <=? _)%Z; auto. }
    destruct (last_hit _ _ _); [auto|].
    split; [exact Hcam|]. constructor; assumption.
Qed.

Lemma envelopes_sweep_kept w :
  Forall (fun b => off_left (cameraX w) b = false) (envelopes (envelopes_sweep w)).
Proof.
  unfold envelopes_sweep.
  apply (fold_right_invariant envelope_step
           (fun w' => cameraX w' = cameraX w /\
                      Forall (fun b => off_left (cameraX w) b = false) (envelopes w'))).
  - split; [reflexivity|constructor].
  - intros env w' [Hcam Hall]. unfold envelope_step. rewrite Hcam.
    destruct (off_left (cameraX w) env) eqn:Hoff; [auto|].
    destruct (hits_hero w' env); [auto|].
    split; [exact Hcam|]. constructor; assumption.
Qed.

Lemma letters_sweep_kept w :
  Forall (fun l => off_right canvas (cameraX w) l = false)
         (letters (letters_sweep canvas w)).
Proof.
  unfold letters_sweep.
  apply (fold_right_invariant (letter_step canvas)
           (fun w' => cameraX w' = cameraX w /\
                      Forall (fun l => off_right canvas (cameraX w) l = false) (letters w'))).
  - split; [reflexivity|constructor].
  - intros l w' [Hcam Hall]. unfold letter_step. rewrite Hcam.
    destruct (off_right canvas (cameraX w) (fly l)) eqn:Hoff; [auto|].
    split; [exact Hcam|]. constructor; assumption.
Qed.

Lemma envelopes_sweep_enemies w : enemies (envelopes_sweep w) = enemies w.
Proof.
  unfold envelopes_sweep.
  apply (fold_right_invariant envelope_step (fun w' => enemies w' = enemies w));
    [reflexivity|].
  intros env w' H. unfold envelope_step.
  destruct (off_left _ _); [exact H|]. destruct (hits_hero _ _); exact H.
Qed.

Lemma letters_sweep_enemies w : enemies (letters_sweep canvas w) = enemies w.
Proof.
  unfold letters_sweep.
  apply (fold_right_invariant (letter_step canvas) (fun w' => enemies w' = enemies w));
    [reflexivity|].
  intros l w' H. unfold letter_step. destruct (off_right _ _ _); exact H.
Qed.

Lemma letters_sweep_envelopes w : envelopes (letters_sweep canvas w) = envelopes w.
Proof.
  unfold letters_sweep.
  apply (fold_right_invariant (letter_step canvas) (fun w' => envelopes w' = envelopes w));
    [reflexivity|].
  intros l w' H. unfold letter_step. destruct (off_right _ _ _); exact H.
Qed.

Lemma off_left_false cam b :
  off_left cam b = false -> ~ Box.x b - cam + Box.width b < 0.
Proof. unfold off_left. intros H. apply Qltb_ge in H. apply Qle_not_lt. exact H. Qed.

Lemma off_right_false cam l :
  off_right canvas cam l = false -> ~ Canvas.width canvas + 50 < Letter.x l - cam.
Proof. unfold off_right. intros H. apply Qgtb_le in H. apply Qle_not_lt. exact H. Qed.

(** After the three loops every array holds only what passed its test. *)
Lemma sweeps_in_play w :
  in_play canvas (letters_sweep canvas (envelopes_sweep (enemies_sweep w))).
Proof.
  pose proof (enemies_sweep_frame w) as (Hc1 & _).
  pose proof (envelopes_sweep_frame (enemies_sweep w)) as (Hc2 & _).
  pose proof (letters_sweep_frame canvas (envelopes_sweep (enemies_sweep w))) as (Hc3 & _).
  unfold in_play. rewrite Hc3, Hc2, Hc1.
  rewrite letters_sweep_enemies, envelopes_sweep_enemies, letters_sweep_envelopes.
  split; [|split].
  - eapply Forall_impl; [apply enemies_sweep_kept|]. apply off_left_false.
  - pose proof (envelopes_sweep_kept (enemies_sweep w)) as H. rewrite Hc1 in H.
    eapply Forall_impl; [exact H|]. apply off_left_false.
  - pose proof (letters_sweep_kept (envelopes_sweep (enemies_sweep w))) as H.
    rewrite Hc2, Hc1 in H.
    eapply Forall_impl; [exact H|]. apply off_right_false.
Qed.

Lemma tick_in_play dt w :
  gameOver w = false -> in_play canvas (tick canvas oracle dt w).
Proof.
  intros Hlive. unfold tick. rewrite Hlive.
  pose proof (sweeps_in_play (before_loops canvas oracle dt w)) as H.
  exact H.
Qed.

Lemma keydown_game_over code w : gameOver w = true -> keydown code w = w.
Proof. intros H. unfold keydown. rewrite H. simpl. rewrite H. reflexivity. Qed.

Lemma keydown_gameOver code w : gameOver (keydown code w) = gameOver w.
Proof.
  destruct (gameOver w) eqn:H; [rewrite keydown_game_over; assumption|].
  unfold keydown. rewrite H. simpl.
  destruct (_ || _)%bool; [destruct (Hero.onGround (hero w))|];
    simpl; rewrite H; simpl; destruct (String.eqb code "KeyE"); simpl; exact H.
Qed.

(** While the page shows "Game Over" the arrays are as the last tick that
    ran left them. *)
Lemma reachable_game_over_in_play w :
  reachable canvas oracle w -> gameOver w = true -> in_play canvas w.
Proof.
  induction 1 as [ts|w ts w' Hw IH Hle Hstep|w code Hw IH]; intros Hover.
  - discriminate.
  - rewrite gameLoop_tick in Hstep. injection Hstep as <-.
    destruct (gameOver w) eqn:Hw0.
    + unfold tick in *. simpl in *. rewrite Hw0 in *. apply IH. reflexivity.
    + apply tick_in_play. exact Hw0.
  - rewrite keydown_gameOver in Hover. rewrite keydown_game_over by exact Hover.
    apply IH. exact Hover.
Qed.

(** C3, as amended.  After a tick, from any state the running page can be
    in: no retained enemy and no retained envelope has its right edge left
    of the canvas (screen [x] + [width] < 0), and no retained letter has its
    screen [x] more than 50 pixels past the right edge of the canvas. *)
Theorem retained_entities_are_in_play dt w :
  reachable canvas oracle w ->
  exists w', update canvas oracle dt w = Some w' /\ in_play canvas w'.
Proof.
  intros Hw. exists (tick canvas oracle dt w).
  split; [apply update_tick|].
  destruct (gameOver w) eqn:Hover.
  - unfold tick. rewrite Hover. apply reachable_game_over_in_play; assumption.
  - apply tick_in_play. exact Hover.
Qed.

End Kept.

(** The first tick after a letter has been shot from the start position. *)
Lemma retained_entities_are_in_play_witness :
  reachable canvas800 zero_oracle (keydown "KeyE" (initial canvas800 0)) /\
  exists w', update canvas800 zero_oracle 0.016 (keydown "KeyE" (initial canvas800 0)) = Some w' /\
             in_play canvas800 w'.
Proof.
  assert (H : reachable canvas800 zero_oracle (keydown "KeyE" (initial canvas800 0))).
  { apply reachable_keydown. apply reachable_initial. }
  split; [exact H|].
  apply (retained_entities_are_in_play canvas800 zero_oracle 0.016 _ H).
Defined.

(** C3, counterexample.  A letter shot from the start position is, 143
    frames later, at screen [x] = 805 on a canvas 800 wide: entirely past the
    right edge, and still in [letters] because the loop only drops letters
    past [canvas.width + 50]. *)
Lemma letter_past_right_edge_is_retained :
  exists w l,
    frames canvas800 zero_oracle (stamps 16 143)
      (keydown "KeyE" (initial canvas800 0)) = Some w /\
    letters w = [l] /\
    Letter.x l - cameraX w == 805 /\
    Canvas.width canvas800 < Letter.x l - cameraX w.
Proof.
  eexists. eexists.
  split; [vm_compute; reflexivity|].
  split; [reflexivity|].
  split; vm_compute; reflexivity.
Qed.

(** ** What the elapsed time can change *)

Section ElapsedTime.

Variable canvas : Canvas.t.
Variable oracle : nat -> Q.











Lemma same_but_timers_refl w : same_but_timers w w.
Proof. repeat split. Qed.


End ElapsedTime.


(** ** Geometry *)






Example touching_hero_is_no_hit :
  overlap 100 80 180 80 == 0 /\ rectIntersect 100 240 80 80 180 240 80 80 = false.
Proof. split; reflexivity. Qed.

(** Why the sizes have to be positive: a rectangle of width and height 0
    strictly inside another one passes the test although the overlap has no
    extent.  The game never builds such a rectangle, its sizes are the
    constants 80, 50 and 20. *)
Example point_inside_rectangle_passes :
  overlap 10 0 0 20 == 0 /\ rectIntersect 10 10 0 0 0 0 20 20 = true.
Proof. split; reflexivity. Qed.

(** ** Spawning *)

Section Spawning.

Variable canvas : Canvas.t.
Variable oracle : nat -> Q.

(** [Math.random] answers in [0, 1). *)
Hypothesis oracle_range : forall k, 0 <= oracle k /\ oracle k < 1.




End Spawning.


(** ** The enemy loop *)

Section EnemyLoop.

Lemma enemy_fold_frame es w : loops_frame w (fold_right enemy_step w es).
Proof.
  apply (fold_right_invariant _ (loops_frame w)); [apply loops_frame_refl|].
  intros a b Hb. eapply loops_frame_trans; [exact Hb|apply enemy_step_frame].
Qed.

(** The tests against the camera and the hero read nothing a loop writes. *)
Lemma frame_tests w w' b :
  loops_frame w w' ->
  off_left (cameraX w') b = off_left (cameraX w) b /\
  hits_hero w' b = hits_hero w b /\
  on_hero w' b = on_hero w b.
Proof.
  intros (Hc & _ & _ & _ & _ & _ & Hx & Hy & _).
  unfold on_hero, hits_hero. rewrite Hc, Hx, Hy. repeat split.
Qed.

Lemma damage_lives w :
  Hero.lives (hero (damage w)) = (Hero.lives (hero w) - 1)%Z.
Proof. unfold damage. fields. destruct (_ <=? _)%Z; reflexivity. Qed.

Lemma damage_arrays w :
  enemies (damage w) = enemies w /\ letters (damage w) = letters w /\
  Hero.score (hero (damage w)) = Hero.score (hero w).
Proof. unfold damage. fields. destruct (_ <=? _)%Z; repeat split. Qed.

(** Peel the first enemy of the list off a fold; [w1] names the state the
    enemies after it have left. *)
Ltac next_enemy w enemy es w1 :=
  change (fold_right enemy_step w (enemy :: es))
    with (enemy_step enemy (fold_right enemy_step w es));
  cbn [List.filter];
  let Hoff := fresh "Hoff" in
  let Hhit := fresh "Hhit" in
  let Hon := fresh "Hon" in
  destruct (frame_tests w _ enemy (enemy_fold_frame es w)) as (Hoff & Hhit & Hon);
  set (w1 := fold_right enemy_step w es) in *;
  unfold enemy_step; rewrite Hoff, Hhit;
  clear Hoff Hhit Hon.

(** Each enemy found on the hero costs one life, and nothing else does. *)
Lemma enemy_fold_lives es w :
  Hero.lives (hero (fold_right enemy_step w es)) =
  (Hero.lives (hero w) - Z.of_nat (length (List.filter (on_hero w) es)))%Z.
Proof.
  induction es as [|enemy es IH]; [simpl; lia|].
  next_enemy w enemy es w1. unfold on_hero at 1.
  destruct (off_left (cameraX w) enemy); cbn [negb andb]; [exact IH|].
  destruct (hits_hero w enemy); cbn [length].
  - rewrite damage_lives, IH. lia.
  - destruct (last_hit _ _ _); reads; exact IH.
Qed.

(** No enemy is kept that overlaps the hero. *)
Lemma enemy_fold_none_on_hero es w :
  Forall (fun b => hits_hero w b = false) (enemies w) ->
  Forall (fun b => hits_hero w b = false) (enemies (fold_right enemy_step w es)).
Proof.
  intros Hw. induction es as [|enemy es IH]; [exact Hw|].
  next_enemy w enemy es w1.
  destruct (off_left (cameraX w) enemy); [exact IH|].
  destruct (hits_hero w enemy) eqn:E.
  - destruct (damage_arrays w1) as (-> & _). exact IH.
  - destruct (last_hit _ _ _); reads; [exact IH|].
    constructor; assumption.
Qed.

(** The book-keeping of the loop: the letters left are a sublist of the
    letters found, each letter used up paid 20 points, and the enemies that
    disappeared are those off screen, those on the hero, and one per
    letter used up. *)
Lemma enemy_fold_account es w :
  letters (fold_right enemy_step w es) `sublist_of` letters w /\
  (length (letters (fold_right enemy_step w es)) <= length (letters w))%nat /\
  Hero.score (hero (fold_right enemy_step w es)) =
    (Hero.score (hero w) +
     20 * Z.of_nat (length (letters w) -
                    length (letters (fold_right enemy_step w es))))%Z /\
  (length es + length (enemies w) =
   length (enemies (fold_right enemy_step w es)) +
   length (List.filter (off_left (cameraX w)) es) +
   length (List.filter (on_hero w) es) +
   (length (letters w) - length (letters (fold_right enemy_step w es))))%nat.
Proof.
  induction es as [|enemy es IH].
  { simpl. repeat split; try reflexivity; lia. }
  destruct IH as (Hsub & Hlen & Hscore & Hcount).
  next_enemy w enemy es w1. unfold on_hero at 1.
  destruct (off_left (cameraX w) enemy); cbn [negb andb length].
  { repeat split; try assumption; lia. }
  destruct (hits_hero w enemy); cbn [length].
  { destruct (damage_arrays w1) as (-> & -> & ->).
    repeat split; try assumption; lia. }
  destruct (last_hit _ _ _) as [j|] eqn:Hj; unfold award; reads.
  - apply last_hit_lt in Hj.
    assert (Hdel : length (delete j (letters w1)) = (length (letters w1) - 1)%nat).
    { apply length_delete. apply lookup_lt_is_Some_2. exact Hj. }
    rewrite Hdel. repeat split.
    + etransitivity; [apply sublist_delete|exact Hsub].
    + lia.
    + rewrite Hscore. lia.
    + lia.
  - cbn [length]. repeat split; try assumption; lia.
Qed.

Lemma same_fight_tests w w' b :
  same_fight w w' ->
  off_left (cameraX w') b = off_left (cameraX w) b /\
  hits_hero w' b = hits_hero w b.
Proof.
  intros (Hc & Hx & Hy & _). unfold hits_hero. rewrite Hc, Hx, Hy. split; reflexivity.
Qed.

Lemma same_fight_damage w w' : same_fight w w' -> same_fight (damage w) w'.
Proof.
  intros (Hc & Hx & Hy & He & Hl & Hs).
  unfold damage, same_fight. reads. destruct (_ <=? _)%Z; reads; repeat split; assumption.
Qed.

(** An enemy that is not found on the hero is handled the same way by two
    states that look the same to the loop. *)
Lemma same_fight_enemy_step enemy w w' :
  same_fight w w' -> on_hero w enemy = false ->
  same_fight (enemy_step enemy w) (enemy_step enemy w').
Proof.
  intros Hsame Hon.
  destruct (same_fight_tests w w' enemy Hsame) as (Hoff & Hhit).
  destruct Hsame as (Hc & Hx & Hy & He & Hl & Hs).
  unfold enemy_step. rewrite Hoff, Hhit, Hc, Hl.
  unfold on_hero in Hon.
  destruct (off_left (cameraX w) enemy); [repeat split; assumption|].
  destruct (hits_hero w enemy); [discriminate|].
  destruct (last_hit _ _ _); unfold award, same_fight; reads;
    repeat split; congruence.
Qed.

(** The enemies found on the hero leave no trace on the letters, the score
    or the enemies kept: the loop ends with the same three whether they are
    in the array or not. *)
Lemma enemy_fold_ignores_on_hero es w :
  same_fight (fold_right enemy_step w es)
             (fold_right enemy_step w (List.filter (fun b => negb (on_hero w b)) es)).
Proof.
  induction es as [|enemy es IH]; [repeat split|].
  cbn [List.filter].
  change (fold_right enemy_step w (enemy :: es))
    with (enemy_step enemy (fold_right enemy_step w es)).
  destruct (frame_tests w _ enemy (enemy_fold_frame es w)) as (Hoff & Hhit & Hon).
  set (r := fold_right enemy_step w es) in *.
  set (r' := fold_right enemy_step w (List.filter _ es)) in *.
  destruct (on_hero w enemy) eqn:E; cbn [negb].
  - unfold enemy_step. rewrite Hoff, Hhit.
    unfold on_hero in E. apply andb_true_iff in E as [E1 E2].
    apply negb_true_iff in E1. rewrite E1, E2.
    apply same_fight_damage. exact IH.
  - cbn [fold_right]. fold r'.
    apply same_fight_enemy_step; [exact IH|exact Hon].
Qed.

Lemma last_hit_None cam enemy ls :
  last_hit cam enemy ls = None ->
  Forall (fun l => hits_letter cam enemy l = false) ls.
Proof.
  induction ls as [|l ls IH]; simpl; intros H; [constructor|].
  destruct (last_hit cam enemy ls); [discriminate|].
  destruct (hits_letter cam enemy l) eqn:E; [discriminate|].
  constructor; [exact E|apply IH; reflexivity].
Qed.

Lemma last_hit_Some cam enemy ls j :
  last_hit cam enemy ls = Some j ->
  exists letter,
    ls !! j = Some letter /\
    hits_letter cam enemy letter = true /\
    forall k l, (j < k)%nat -> ls !! k = Some l -> hits_letter cam enemy l = false.
Proof.
  revert j. induction ls as [|l0 ls IH]; simpl; intros j H; [discriminate|].
  destruct (last_hit cam enemy ls) as [j'|] eqn:E.
  - injection H as <-. destruct (IH j' eq_refl) as (letter & Hl & Hhit & Habove).
    exists letter. repeat split; [exact Hl|exact Hhit|].
    intros [|k] l Hk Hlk; [lia|]. simpl in Hlk. apply (Habove k l); [lia|exact Hlk].
  - destruct (hits_letter cam enemy l0) eqn:E0; [|discriminate].
    injection H as <-. exists l0. repeat split; [exact E0|].
    intros [|k] l Hk Hlk; [lia|]. simpl in Hlk.
    pose proof (last_hit_None _ _ _ E) as Hall.
    rewrite Forall_forall in Hall. apply Hall.
    apply list_elem_of_lookup. eauto.
Qed.

End EnemyLoop.

(** ** Collisions *)

Section Collisions.

Variable canvas : Canvas.t.
Variable oracle : nat -> Q.

(** The body of the enemy loop on an enemy found on the hero. *)
Lemma enemies_body_on_hero i w enemy :
  enemies w !! i = Some enemy ->
  on_hero w enemy = true ->
  enemies_body i w = Some (damage (set_enemies (delete i (enemies w)) w)).
Proof.
  intros Hi Hon. unfold on_hero in Hon.
  apply andb_true_iff in Hon as [Hoff Hhit]. apply negb_true_iff in Hoff.
  unfold off_left in Hoff. unfold hits_hero in Hhit.
  unfold enemies_body. rewrite Hi. cbn [mbind option_bind].
  rewrite Hoff, Hhit. unfold damage. reads. reflexivity.
Qed.

Lemma envelopes_sweep_lives w :
  Hero.lives (hero (envelopes_sweep w)) = Hero.lives (hero w).
Proof.
  unfold envelopes_sweep.
  apply (fold_right_invariant envelope_step
           (fun w' => Hero.lives (hero w') = Hero.lives (hero w))); [reflexivity|].
  intros env w' H. unfold envelope_step.
  destruct (off_left _ _); [exact H|]. destruct (hits_hero _ _); exact H.
Qed.

Lemma letters_sweep_lives w :
  Hero.lives (hero (letters_sweep canvas w)) = Hero.lives (hero w).
Proof.
  unfold letters_sweep.
  apply (fold_right_invariant (letter_step canvas)
           (fun w' => Hero.lives (hero w') = Hero.lives (hero w))); [reflexivity|].
  intros l w' H. unfold letter_step. destruct (off_right _ _ _); exact H.
Qed.

Lemma before_loops_lives dt w :
  Hero.lives (hero (before_loops canvas oracle dt w)) = Hero.lives (hero w).
Proof. run_blocks w; reflexivity. Qed.

(** C6.  (1) The body of the enemy loop, on an enemy that is on screen and
    overlaps the hero: the enemy is spliced out, one life is taken, the
    score and the letters are as before, and the outcome is the same
    whatever the [letters] array holds, so no letter is looked at.
    (2) The whole loop: it takes one life per enemy found on the hero, keeps
    no enemy that overlaps the hero, and ends with the same enemies, letters
    and score as it does when the enemies found on the hero are taken out of
    the array beforehand.
    (3) A whole tick takes exactly one life per enemy found on the hero on
    entry to the loop. *)
Theorem hero_collision_comes_first :
  (forall i w enemy,
     enemies w !! i = Some enemy ->
     on_hero w enemy = true ->
     exists w', enemies_body i w = Some w' /\
       enemies w' = delete i (enemies w) /\
       Hero.lives (hero w') = (Hero.lives (hero w) - 1)%Z /\
       Hero.score (hero w') = Hero.score (hero w) /\
       letters w' = letters w /\
       forall ls, enemies_body i (set_letters ls w) = Some (set_letters ls w')) /\
  (forall w,
     let rest := List.filter (fun b => negb (on_hero w b)) (enemies w) in
     exists w' w'',
       enemies_loop (length (enemies w)) w = Some w' /\
       Hero.lives (hero w') =
         (Hero.lives (hero w) -
          Z.of_nat (length (List.filter (on_hero w) (enemies w))))%Z /\
       Forall (fun b => hits_hero w b = false) (enemies w') /\
       enemies_loop (length rest) (set_enemies rest w) = Some w'' /\
       enemies w' = enemies w'' /\
       letters w' = letters w'' /\
       Hero.score (hero w') = Hero.score (hero w'')) /\
  (forall dt w,
     gameOver w = false ->
     exists w', update canvas oracle dt w = Some w' /\
       Hero.lives (hero w') =
         (Hero.lives (hero w) -
          Z.of_nat (length (List.filter (on_hero (before_loops canvas oracle dt w))
                              (enemies (before_loops canvas oracle dt w)))))%Z).
Proof.
  split; [|split].
  - intros i w enemy Hi Hon.
    exists (damage (set_enemies (delete i (enemies w)) w)).
    split; [apply (enemies_body_on_hero i w enemy); assumption|].
    rewrite damage_lives.
    destruct (damage_arrays (set_enemies (delete i (enemies w)) w)) as (-> & -> & ->).
    repeat split.
    intros ls. rewrite (enemies_body_on_hero i (set_letters ls w) enemy Hi Hon).
    unfold damage. reads. destruct (_ <=? _)%Z; reflexivity.
  - intros w rest.
    exists (enemies_sweep w), (enemies_sweep (set_enemies rest w)).
    split; [apply enemies_loop_sweep|].
    split; [apply (enemy_fold_lives (enemies w) (set_enemies [] w))|].
    split; [apply (enemy_fold_none_on_hero (enemies w) (set_enemies [] w)); constructor|].
    split; [apply (enemies_loop_sweep (set_enemies rest w))|].
    destruct (enemy_fold_ignores_on_hero (enemies w) (set_enemies [] w))
      as (_ & _ & _ & He & Hl & Hs).
    repeat split; symmetry; assumption.
  - intros dt w Hlive. exists (tick canvas oracle dt w).
    split; [apply update_tick|].
    unfold tick. rewrite Hlive.
    rewrite letters_sweep_lives, envelopes_sweep_lives.
    unfold enemies_sweep.
    rewrite (enemy_fold_lives (enemies (before_loops canvas oracle dt w))).
    reads. rewrite before_loops_lives. reflexivity.
Qed.

End Collisions.

(** An enemy that overlaps the hero and a letter: the body of the loop
    takes a life and leaves the letter and the score alone. *)
Lemma hero_collision_comes_first_witness :
  hits_letter (cameraX ambush) (Box.mk 150 240 80 80) (Letter.mk 140 270 20 20 8) = true /\
  exists w', enemies_body 0 ambush = Some w' /\
    enemies w' = [] /\
    Hero.lives (hero w') = 2%Z /\
    Hero.score (hero w') = 0%Z /\
    letters w' = [Letter.mk 140 270 20 20 8].
Proof.
  split; [reflexivity|].
  destruct (proj1 (hero_collision_comes_first canvas800 zero_oracle)
              0%nat ambush (Box.mk 150 240 80 80) eq_refl eq_refl)
    as (w' & Hbody & Henemies & Hlives & Hscore & Hletters & _).
  exists w'. repeat split; assumption.
Defined.

(** ** One enemy per letter *)

Section OnePerLetter.

(** C9.  (1) The scan of [letters] for one enemy either finds no
    overlapping letter and changes nothing, or stops at the overlapping
    letter of highest index, splices out that letter and that enemy and adds
    20 to the score: one letter and one enemy per scan.
    (2) Over the whole enemy loop the letters left are a sublist of the
    letters found, the score grows by 20 per letter used up, and the
    enemies that disappeared are those off screen, those found on the hero
    and exactly one per letter used up.
    (3) Once letter [j] has hit the enemy at index [i], the enemies below
    [i] are visited in a state whose [letters] array is the old one without
    letter [j]. *)
Theorem each_letter_removes_at_most_one_enemy :
  (forall i enemy w,
     exists w',
       letters_scan i enemy (Box.x enemy - cameraX w) (length (letters w)) w = Some w' /\
       ((Forall (fun l => hits_letter (cameraX w) enemy l = false) (letters w) /\
         w' = w) \/
        (exists j letter,
           letters w !! j = Some letter /\
           hits_letter (cameraX w) enemy letter = true /\
           (forall k l, (j < k)%nat -> letters w !! k = Some l ->
                        hits_letter (cameraX w) enemy l = false) /\
           w' = kill i j w /\
           enemies w' = delete i (enemies w) /\
           letters w' = delete j (letters w) /\
           Hero.score (hero w') = (Hero.score (hero w) + 20)%Z))) /\
  (forall w,
     exists w',
       enemies_loop (length (enemies w)) w = Some w' /\
       letters w' `sublist_of` letters w /\
       Hero.score (hero w') =
         (Hero.score (hero w) +
          20 * Z.of_nat (length (letters w) - length (letters w')))%Z /\
       (length (enemies w) =
        length (enemies w') +
        length (List.filter (off_left (cameraX w)) (enemies w)) +
        length (List.filter (on_hero w) (enemies w)) +
        (length (letters w) - length (letters w')))%nat) /\
  (forall i w enemy j,
     enemies w !! i = Some enemy ->
     off_left (cameraX w) enemy = false ->
     hits_hero w enemy = false ->
     last_hit (cameraX w) enemy (letters w) = Some j ->
     enemies_loop (S i) w = enemies_loop i (kill i j w) /\
     letters (kill i j w) = delete j (letters w)).
Proof.
  split; [|split].
  - intros i enemy w.
    rewrite letters_scan_last_hit by reflexivity. rewrite firstn_all.
    destruct (last_hit (cameraX w) enemy (letters w)) as [j|] eqn:Hj.
    + exists (kill i j w). split; [reflexivity|]. right.
      destruct (last_hit_Some _ _ _ _ Hj) as (letter & Hl & Hhit & Habove).
      exists j, letter. repeat split; assumption.
    + exists w. split; [reflexivity|]. left.
      split; [apply last_hit_None; exact Hj|reflexivity].
  - intros w. exists (enemies_sweep w).
    split; [apply enemies_loop_sweep|].
    destruct (enemy_fold_account (enemies w) (set_enemies [] w))
      as (Hsub & _ & Hscore & Hcount).
    split; [exact Hsub|]. split; [exact Hscore|].
    cbn [enemies set_enemies length] in Hcount.
    rewrite Nat.add_0_r in Hcount. exact Hcount.
  - intros i w enemy j Hi Hoff Hhit Hj.
    split; [|reflexivity].
    cbn [enemies_loop]. unfold enemies_body. rewrite Hi. cbn [mbind option_bind].
    unfold off_left in Hoff. unfold hits_hero in Hhit. rewrite Hoff, Hhit.
    rewrite letters_scan_last_hit by reflexivity. rewrite firstn_all, Hj.
    reflexivity.
Qed.

End OnePerLetter.

(** One letter lying on two enemies removes only the one visited first (the
    last of the array). *)
Lemma each_letter_removes_at_most_one_enemy_witness :
  hits_letter (cameraX two_for_one) (Box.mk 400 240 80 80) (Letter.mk 390 270 20 20 8) = true /\
  enemies_loop 2 two_for_one = enemies_loop 1 (kill 1 0 two_for_one) /\
  exists w', enemies_loop 2 two_for_one = Some w' /\
    enemies w' = [Box.mk 400 240 80 80] /\
    letters w' = [] /\
    Hero.score (hero w') = 20%Z.
Proof.
  split; [reflexivity|].
  destruct (proj2 (proj2 each_letter_removes_at_most_one_enemy)
              1%nat two_for_one (Box.mk 400 240 80 80) 0%nat
              eq_refl eq_refl eq_refl eq_refl) as (Hnext & _).
  split; [exact Hnext|].
  eexists. split; [vm_compute; reflexivity|].
  repeat split.
Defined.

(** ** The counters *)

Section Counters.

Variable canvas : Canvas.t.
Variable oracle : nat -> Q.

Lemma damage_counters_ok w : counters_ok w -> counters_ok (damage w).
Proof.
  unfold counters_ok, damage. reads. intros [Hs Hl].
  destruct (Hero.lives (hero w) - 1 <=? 0)%Z eqn:E; reads.
  - apply Z.leb_le in E. split; [exact Hs|]. split; [discriminate|lia].
  - apply Z.leb_gt in E. split; [exact Hs|]. split; [lia|].
    intros _. apply Hl. lia.
Qed.

Lemma enemy_step_counters_ok enemy w : counters_ok w -> counters_ok (enemy_step enemy w).
Proof.
  intros H. unfold enemy_step.
  destruct (off_left _ _); [exact H|].
  destruct (hits_hero _ _); [apply damage_counters_ok; exact H|].
  destruct (last_hit _ _ _); [|exact H].
  destruct H as [Hs Hl]. unfold counters_ok, award. reads. split; [lia|exact Hl].
Qed.

Lemma envelope_step_counters_ok env w :
  counters_ok w -> counters_ok (envelope_step env w).
Proof.
  intros H. unfold envelope_step.
  destruct (off_left _ _); [exact H|].
  destruct (hits_hero _ _); [|exact H].
  destruct H as [Hs Hl]. unfold counters_ok, award. reads. split; [lia|exact Hl].
Qed.

Lemma letter_step_counters_ok l w :
  counters_ok w -> counters_ok (letter_step canvas l w).
Proof.
  intros H. unfold letter_step. destruct (off_right _ _ _); exact H.
Qed.

Lemma before_loops_counters_ok dt w :
  counters_ok w -> counters_ok (before_loops canvas oracle dt w).
Proof. unfold counters_ok. run_blocks w; reads; intros H; exact H. Qed.

Lemma tick_counters_ok dt w : counters_ok w -> counters_ok (tick canvas oracle dt w).
Proof.
  intros H. unfold tick. destruct (gameOver w); [exact H|].
  unfold letters_sweep, envelopes_sweep, enemies_sweep.
  apply fold_right_invariant; [|intros; apply letter_step_counters_ok; assumption].
  apply (fold_right_invariant envelope_step counters_ok);
    [|intros; apply envelope_step_counters_ok; assumption].
  apply (fold_right_invariant enemy_step counters_ok);
    [|intros; apply enemy_step_counters_ok; assumption].
  apply (before_loops_counters_ok dt w H).
Qed.

Lemma keydown_counters_ok code w : counters_ok w -> counters_ok (keydown code w).
Proof.
  unfold counters_ok, keydown, shootLetter. by_fields w. reads.
  intros H. split_ifs; reads; exact H.
Qed.

Lemma reachable_counters_ok w : reachable canvas oracle w -> counters_ok w.
Proof.
  induction 1 as [ts|w ts w' Hw IH Hle Hstep|w code Hw IH].
  - unfold counters_ok. simpl. split; [lia|]. split; [lia|reflexivity].
  - rewrite gameLoop_tick in Hstep. injection Hstep as <-.
    apply tick_counters_ok. exact IH.
  - apply keydown_counters_ok. exact IH.
Qed.

End Counters.

(** * Further properties of the code *)

(** ** The envelope loop and the letter loop in closed form *)

Section ClosedForms.

Variable canvas : Canvas.t.

Lemma envelope_fold_frame es w : loops_frame w (fold_right envelope_step w es).
Proof.
  apply (fold_right_invariant _ (loops_frame w)); [apply loops_frame_refl|].
  intros a b Hb. eapply loops_frame_trans; [exact Hb|apply envelope_step_frame].
Qed.

Lemma envelope_fold_closed es w :
  envelopes (fold_right envelope_step w es) = List.filter (stays w) es ++ envelopes w /\
  Hero.score (hero (fold_right envelope_step w es)) =
    (Hero.score (hero w) + 10 * Z.of_nat (length (List.filter (on_hero w) es)))%Z /\
  Hero.lives (hero (fold_right envelope_step w es)) = Hero.lives (hero w) /\
  gameOver (fold_right envelope_step w es) = gameOver w /\
  enemies (fold_right envelope_step w es) = enemies w /\
  letters (fold_right envelope_step w es) = letters w.
Proof.
  induction es as [|env es IH].
  { simpl. repeat split. lia. }
  destruct IH as (Hkept & Hscore & Hlives & Hover & Henemies & Hletters).
  change (fold_right envelope_step w (env :: es))
    with (envelope_step env (fold_right envelope_step w es)).
  cbn [List.filter].
  destruct (frame_tests w _ env (envelope_fold_frame es w)) as (Hoff & Hhit & _).
  set (w1 := fold_right envelope_step w es) in *.
  unfold envelope_step. rewrite Hoff, Hhit.
  assert (Hstays : stays w env =
                   negb (off_left (cameraX w) env) && negb (hits_hero w env))
    by reflexivity.
  assert (Hon : on_hero w env =
                negb (off_left (cameraX w) env) && hits_hero w env)
    by reflexivity.
  rewrite Hstays, Hon. clear Hstays Hon.
  destruct (off_left (cameraX w) env); cbn [negb andb].
  { repeat split; assumption. }
  destruct (hits_hero w env); cbn [negb length]; unfold award; reads.
  - repeat split; try assumption. rewrite Hscore. lia.
  - rewrite Hkept. repeat split; assumption.
Qed.

(** X1.  The envelope loop never throws.  It keeps, in their order, exactly
    the envelopes that pass the off-screen test and do not overlap the hero,
    adds 10 to the score for each envelope found on the hero, and writes
    nothing else: lives, [gameOver], enemies and letters are as before. *)
Theorem envelope_loop_collects w :
  exists w', envelopes_loop (length (envelopes w)) w = Some w' /\
    envelopes w' = List.filter (stays w) (envelopes w) /\
    Hero.score (hero w') =
      (Hero.score (hero w) +
       10 * Z.of_nat (length (List.filter (on_hero w) (envelopes w))))%Z /\
    Hero.lives (hero w') = Hero.lives (hero w) /\
    gameOver w' = gameOver w /\
    enemies w' = enemies w /\
    letters w' = letters w /\
    loops_frame w w'.
Proof.
  exists (envelopes_sweep w). split; [apply envelopes_loop_sweep|].
  destruct (envelope_fold_closed (envelopes w) (set_envelopes [] w))
    as (Hkept & Hscore & Hlives & Hover & Henemies & Hletters).
  cbn [envelopes set_envelopes] in Hkept. rewrite app_nil_r in Hkept.
  repeat split; try assumption; apply envelopes_sweep_frame.
Qed.

Lemma letter_fold_closed ls w :
  fold_right (letter_step canvas) w ls =
  set_letters (List.filter (fun l => negb (off_right canvas (cameraX w) l)) (map fly ls)
               ++ letters w) w.
Proof.
  induction ls as [|l ls IH].
  { simpl. destruct w; reflexivity. }
  change (fold_right (letter_step canvas) w (l :: ls))
    with (letter_step canvas l (fold_right (letter_step canvas) w ls)).
  rewrite IH. unfold letter_step. cbn [map List.filter]. reads.
  destruct (off_right canvas (cameraX w) (fly l)); reflexivity.
Qed.

(** X2.  The letter loop never throws.  It adds its [speed] to the [x] of
    every letter, then keeps, in their order, exactly the moved letters that
    are not more than 50 pixels past the right edge of the canvas; no other
    variable is written. *)
Theorem letter_loop_flies w :
  letters_loop canvas (length (letters w)) w =
  Some (set_letters
          (List.filter (fun l => negb (off_right canvas (cameraX w) l))
                       (map fly (letters w))) w).
Proof.
  rewrite letters_loop_sweep. unfold letters_sweep.
  rewrite letter_fold_closed. cbn [letters set_letters cameraX].
  rewrite app_nil_r. reflexivity.
Qed.

End ClosedForms.

(** ** The enemy loop keeps order *)

(** Peel the first enemy of the list off a fold over the enemies; [w1]
    names the state left by the enemies after it. *)
Ltac peel_enemy w enemy es w1 :=
  change (fold_right enemy_step w (enemy :: es))
    with (enemy_step enemy (fold_right enemy_step w es));
  cbn [List.filter];
  let Hoff := fresh "Hoff" in
  let Hhit := fresh "Hhit" in
  let Hon := fresh "Hon" in
  destruct (frame_tests w _ enemy (enemy_fold_frame es w)) as (Hoff & Hhit & Hon);
  set (w1 := fold_right enemy_step w es) in *;
  unfold enemy_step; rewrite Hoff, Hhit;
  clear Hoff Hhit Hon.

Section EnemyOrder.

Lemma enemy_fold_order es w :
  enemies (fold_right enemy_step w es) `sublist_of` es ++ enemies w /\
  (letters w = [] ->
     enemies (fold_right enemy_step w es) = List.filter (stays w) es ++ enemies w /\
     letters (fold_right enemy_step w es) = [] /\
     Hero.score (hero (fold_right enemy_step w es)) = Hero.score (hero w)).
Proof.
  induction es as [|enemy es IH].
  { simpl. split; [reflexivity|]. intros ->. repeat split. }
  destruct IH as (Hsub & Hnone).
  peel_enemy w enemy es w1.
  assert (Hstays : stays w enemy =
                   negb (off_left (cameraX w) enemy) && negb (hits_hero w enemy))
    by reflexivity.
  rewrite Hstays. clear Hstays.
  destruct (off_left (cameraX w) enemy); cbn [negb andb].
  { split; [apply sublist_cons; exact Hsub|exact Hnone]. }
  destruct (hits_hero w enemy); cbn [negb].
  { destruct (damage_arrays w1) as (-> & -> & ->).
    split; [apply sublist_cons; exact Hsub|exact Hnone]. }
  split.
  - destruct (last_hit _ _ _); reads;
      [apply sublist_cons; exact Hsub|apply sublist_skip; exact Hsub].
  - intros Hempty. destruct (Hnone Hempty) as (Hkept & Hletters & Hscore).
    rewrite Hletters. cbn [last_hit]. reads.
    rewrite Hkept. repeat split; assumption.
Qed.

(** X3.  The enemy loop neither reorders nor invents enemies: what it keeps
    is a sublist of what it found.  When no letter is in flight it keeps
    exactly the enemies that pass the off-screen test and do not overlap the
    hero, and the score is left alone. *)
Theorem enemy_loop_keeps_order w :
  exists w', enemies_loop (length (enemies w)) w = Some w' /\
    enemies w' `sublist_of` enemies w /\
    envelopes w' = envelopes w /\
    (letters w = [] ->
       enemies w' = List.filter (stays w) (enemies w) /\
       letters w' = [] /\
       Hero.score (hero w') = Hero.score (hero w)).
Proof.
  exists (enemies_sweep w). split; [apply enemies_loop_sweep|].
  destruct (enemy_fold_order (enemies w) (set_enemies [] w)) as (Hsub & Hnone).
  cbn [enemies set_enemies letters] in Hsub, Hnone. rewrite app_nil_r in Hsub.
  split; [exact Hsub|]. split.
  - unfold enemies_sweep.
    apply (fold_right_invariant enemy_step (fun w' => envelopes w' = envelopes w));
      [reflexivity|].
    intros enemy w' H. unfold enemy_step.
    destruct (off_left _ _); [exact H|].
    destruct (hits_hero _ _).
    { unfold damage. reads. destruct (_ <=? _)%Z; exact H. }
    destruct (last_hit _ _ _); exact H.
  - intros Hempty. destruct (Hnone Hempty) as (Hkept & Hletters & Hscore).
    rewrite app_nil_r in Hkept. repeat split; assumption.
Qed.

End EnemyOrder.

(** ** What holds in every state the page can be in *)

Section Invariants.

Variable canvas : Canvas.t.
Variable oracle : nat -> Q.

(** X4.  No run of frames throws: every array read of the three loops of
    [update] is in range, although the loops splice while they iterate. *)
Theorem frames_never_throw tss w :
  exists w', frames canvas oracle tss w = Some w'.
Proof.
  revert w. induction tss as [|ts tss IH]; intros w; simpl; [eauto|].
  rewrite gameLoop_tick. simpl. apply IH.
Qed.

(** X5.  In every reachable state the score is not negative and the game is
    over exactly when no life is left ([hero.lives] is 0 or less). *)
Theorem game_over_exactly_when_no_life_left w :
  reachable canvas oracle w ->
  (0 <= Hero.score (hero w))%Z /\
  (gameOver w = true <-> (Hero.lives (hero w) <= 0)%Z).
Proof.
  intros Hw. destruct (reachable_counters_ok canvas oracle w Hw) as (Hs & Hl).
  split; [exact Hs|].
  destruct (gameOver w); split; intros H; try reflexivity; try discriminate.
  - destruct (Z_le_gt_dec (Hero.lives (hero w)) 0) as [Hle|Hgt]; [exact Hle|].
    assert (true = false) by (apply Hl; lia). discriminate.
  - assert (1 <= Hero.lives (hero w))%Z by (apply Hl; reflexivity). lia.
Qed.

Lemma tick_hero_ok dt w : hero_ok canvas w -> hero_ok canvas (tick canvas oracle dt w).
Proof.
  intros H. destruct (gameOver w) eqn:Hlive.
  { unfold tick. rewrite Hlive. exact H. }
  destruct H as (Hx & Hwx & Hcam & Hy & Hground).
  destruct (tick_frame canvas oracle dt w Hlive)
    as (Hc' & _ & _ & _ & _ & Hwx' & Hx' & Hy' & Hvy' & Hg' & _).
  unfold hero_ok. rewrite Hc', Hwx', Hx', Hy', Hvy', Hg'.
  rewrite before_loops_cameraX, before_loops_worldX, before_loops_x,
    before_loops_y, before_loops_vy, before_loops_onGround.
  destruct (vertical_physics_cases canvas w) as [Hpast Hnot].
  fold (groundY canvas) in *.
  split; [exact Hx|]. split; [rewrite Hwx; reflexivity|].
  split; [unfold WORLD_SPEED; lra|].
  destruct (Qlt_le_dec (groundY canvas) (integrated_y w)) as [Hcmp|Hcmp].
  - destruct (Hpast Hcmp) as (-> & -> & ->).
    split; [apply Qle_refl|]. intros _. split; reflexivity.
  - destruct (Hnot Hcmp) as (-> & -> & ->).
    split; [exact Hcmp|]. intros Hon.
    destruct (Hground Hon) as (Ey & Evy).
    exfalso. unfold integrated_y in Hcmp. rewrite Ey, Evy in Hcmp.
    unfold GRAVITY in Hcmp. lra.
Qed.

Lemma keydown_hero_ok code w : hero_ok canvas w -> hero_ok canvas (keydown code w).
Proof.
  unfold hero_ok, keydown, shootLetter. by_fields w. reads.
  intros H. split_ifs; reads; try exact H.
  all: destruct H as (Hx & Hwx & Hcam & Hy & Hground);
    repeat split; try assumption; try discriminate.
Qed.

Lemma reachable_hero_ok w : reachable canvas oracle w -> hero_ok canvas w.
Proof.
  induction 1 as [ts|w ts w' Hw IH Hle Hstep|w code Hw IH].
  - unfold hero_ok. simpl. repeat split; try reflexivity; try apply Qle_refl.
  - rewrite gameLoop_tick in Hstep. injection Hstep as <-.
    apply tick_hero_ok. exact IH.
  - apply keydown_hero_ok. exact IH.
Qed.

(** X6.  In every reachable state the hero's screen [x] is 100, its world
    [x] equals the camera offset (which is not negative), its [y] is not
    below the ground line, and whenever [onGround] is set the hero stands
    exactly on the ground line with vertical velocity 0. *)
Theorem hero_stays_in_place w :
  reachable canvas oracle w -> hero_ok canvas w.
Proof. apply reachable_hero_ok. Qed.

End Invariants.

Section RangedInvariants.

Variable canvas : Canvas.t.
Variable oracle : nat -> Q.

(** [Math.random] answers in [0, 1). *)
Hypothesis oracle_range : forall k, 0 <= oracle k /\ oracle k < 1.








Lemma enemies_sweep_envelopes w : envelopes (enemies_sweep w) = envelopes w.
Proof.
  unfold enemies_sweep.
  apply (fold_right_invariant enemy_step (fun w' => envelopes w' = envelopes w));
    [reflexivity|].
  intros enemy w' H. unfold enemy_step.
  destruct (off_left _ _); [exact H|].
  destruct (hits_hero _ _).
  { unfold damage. reads. destruct (_ <=? _)%Z; exact H. }
  destruct (last_hit _ _ _); exact H.
Qed.





End RangedInvariants.

(** Witnesses of the invariants: the state after a letter has been shot
    from the start position. *)
Lemma game_over_exactly_when_no_life_left_witness :
  reachable canvas800 zero_oracle (keydown "KeyE" (initial canvas800 0)) /\
  (0 <= 0)%Z /\ (false = true <-> (3 <= 0)%Z).
Proof.
  assert (H : reachable canvas800 zero_oracle (keydown "KeyE" (initial canvas800 0))).
  { apply reachable_keydown. apply reachable_initial. }
  split; [exact H|].
  exact (game_over_exactly_when_no_life_left canvas800 zero_oracle _ H).
Defined.

Lemma hero_stays_in_place_witness :
  reachable canvas800 zero_oracle (keydown "KeyE" (initial canvas800 0)) /\
  hero_ok canvas800 (keydown "KeyE" (initial canvas800 0)).
Proof.
  assert (H : reachable canvas800 zero_oracle (keydown "KeyE" (initial canvas800 0))).
  { apply reachable_keydown. apply reachable_initial. }
  split; [exact H|].
  exact (hero_stays_in_place canvas800 zero_oracle _ H).
Defined.




(** ** The score of one tick *)

Section Ledger.

Variable canvas : Canvas.t.
Variable oracle : nat -> Q.

Lemma before_loops_score dt w :
  Hero.score (hero (before_loops canvas oracle dt w)) = Hero.score (hero w).
Proof. run_blocks w; reflexivity. Qed.

Lemma before_loops_letters dt w :
  letters (before_loops canvas oracle dt w) = letters w.
Proof. run_blocks w; reflexivity. Qed.

Lemma letters_sweep_score w :
  Hero.score (hero (letters_sweep canvas w)) = Hero.score (hero w).
Proof.
  unfold letters_sweep. rewrite letter_fold_closed. reflexivity.
Qed.

(** X9.  The score of a tick run while the game is not over: it grows by 20
    for every letter the enemy loop uses up and by 10 for every envelope
    found on the hero, and by nothing else; so the score never goes down in
    a tick, and lives never go up. *)
Theorem tick_score_ledger dt w :
  gameOver w = false ->
  exists w1 w',
    enemies_loop (length (enemies (before_loops canvas oracle dt w)))
                 (before_loops canvas oracle dt w) = Some w1 /\
    update canvas oracle dt w = Some w' /\
    Hero.score (hero w') =
      (Hero.score (hero w) +
       20 * Z.of_nat (length (letters w) - length (letters w1)) +
       10 * Z.of_nat (length (List.filter (on_hero (before_loops canvas oracle dt w))
                                  (envelopes (before_loops canvas oracle dt w)))))%Z /\
    (Hero.score (hero w) <= Hero.score (hero w'))%Z /\
    (Hero.lives (hero w') <= Hero.lives (hero w))%Z.
Proof.
  intros Hlive.
  set (w0 := before_loops canvas oracle dt w).
  exists (enemies_sweep w0), (tick canvas oracle dt w).
  split; [apply enemies_loop_sweep|]. split; [apply update_tick|].
  assert (Hscore :
    Hero.score (hero (tick canvas oracle dt w)) =
      (Hero.score (hero w) +
       20 * Z.of_nat (length (letters w) - length (letters (enemies_sweep w0))) +
       10 * Z.of_nat (length (List.filter (on_hero w0) (envelopes w0))))%Z).
  { unfold tick. rewrite Hlive. fold w0.
    rewrite letters_sweep_score.
    destruct (envelope_fold_closed (envelopes (enemies_sweep w0))
                (set_envelopes [] (enemies_sweep w0))) as (_ & Hs & _).
    fold (envelopes_sweep (enemies_sweep w0)) in Hs.
    cbn [hero set_envelopes] in Hs. rewrite Hs. clear Hs.
    destruct (enemy_fold_account (enemies w0) (set_enemies [] w0)) as (_ & _ & Hs & _).
    fold (enemies_sweep w0) in Hs. cbn [hero letters set_enemies] in Hs.
    rewrite Hs. clear Hs.
    rewrite enemies_sweep_envelopes.
    assert (Hsame : List.filter (on_hero (set_envelopes [] (enemies_sweep w0))) (envelopes w0)
                    = List.filter (on_hero w0) (envelopes w0)).
    { apply List.filter_ext. intros b.
      destruct (frame_tests w0 (enemies_sweep w0) b (enemies_sweep_frame w0)) as (_ & _ & Hon).
      exact Hon. }
    rewrite Hsame. unfold w0 at 1 2.
    rewrite before_loops_score, before_loops_letters. reflexivity. }
  split; [exact Hscore|]. split; [lia|].
  unfold tick. rewrite Hlive. fold w0.
  rewrite letters_sweep_lives, envelopes_sweep_lives.
  unfold enemies_sweep. rewrite enemy_fold_lives. reads.
  unfold w0. rewrite before_loops_lives. lia.
Qed.

End Ledger.

(** The first tick of a game: nothing to hit, nothing to collect. *)
Lemma tick_score_ledger_witness :
  exists w', update canvas800 zero_oracle 0.016 (initial canvas800 0) = Some w' /\
    Hero.score (hero w') = 0%Z /\ Hero.lives (hero w') = 3%Z.
Proof.
  destruct (tick_score_ledger canvas800 zero_oracle 0.016 (initial canvas800 0) eq_refl)
    as (w1 & w' & _ & Hupdate & _ & _ & _).
  exists w'. split; [exact Hupdate|].
  vm_compute in Hupdate. injection Hupdate as <-. split; reflexivity.
Defined.

(** ** When the spawners must and cannot fire *)

Section SpawnWindow.

Variable canvas : Canvas.t.
Variable oracle : nat -> Q.

(** [Math.random] answers in [0, 1). *)
Hypothesis oracle_range : forall k, 0 <= oracle k /\ oracle k < 1.




End SpawnWindow.


(** ** The keys *)

Section Keys.

Lemma keydown_other_key code w :
  String.eqb code "KeyE" = false -> String.eqb code "Space" = false ->
  String.eqb code "ArrowUp" = false -> keydown code w = w.
Proof.
  intros HE HS HA. unfold keydown. rewrite HE, HS, HA.
  cbn [orb]. rewrite !andb_false_r. reflexivity.
Qed.

Lemma keydown_not_fire code w :
  String.eqb code "KeyE" = false ->
  keydown code w =
  if negb (gameOver w) && (String.eqb code "Space" || String.eqb code "ArrowUp")
  then
    if Hero.onGround (hero w)
    then set_hero (Hero.set_onGround false (Hero.set_vy JUMP_VELOCITY (hero w))) w
    else w
  else w.
Proof.
  intros HE. unfold keydown. rewrite HE. cbv zeta.
  rewrite andb_false_r. reflexivity.
Qed.

(** X11.  A key other than [KeyE] pressed twice in a row does what one
    press does: a jump cannot be re-triggered in the air, so key repeat
    gives no double jump.  A key other than [Space], [ArrowUp] and [KeyE]
    changes nothing at all. *)
Theorem jump_is_idempotent code w :
  code <> "KeyE"%string ->
  keydown code (keydown code w) = keydown code w /\
  (code <> "Space"%string -> code <> "ArrowUp"%string -> keydown code w = w).
Proof.
  intros HE. apply String.eqb_neq in HE.
  split.
  - rewrite !(keydown_not_fire code) by exact HE.
    destruct (gameOver w) eqn:Hover; cbn [negb andb]; [rewrite Hover; reflexivity|].
    destruct (_ || _)%bool; cbn [negb andb]; [|rewrite Hover; reflexivity].
    destruct (Hero.onGround (hero w)) eqn:Hground; reads;
      rewrite Hover; [|rewrite Hground]; reflexivity.
  - intros HS HA. apply String.eqb_neq in HS. apply String.eqb_neq in HA.
    apply keydown_other_key; assumption.
Qed.

(** The letter [shootLetter] builds in state [w]. *)
Lemma keydown_fire w :
  gameOver w = false ->
  keydown "KeyE" w =
  set_letters (letters w ++
    [Letter.mk (Hero.worldX (hero w) + HERO_SIZE + 10)
               (Hero.y (hero w) + HERO_SIZE / 2 - LETTER_SIZE / 2)
               LETTER_SIZE LETTER_SIZE 8]) w.
Proof.
  intros H. unfold keydown. cbv zeta.
  change (String.eqb "KeyE" "Space") with false.
  change (String.eqb "KeyE" "ArrowUp") with false.
  change (String.eqb "KeyE" "KeyE") with true.
  cbn [orb]. rewrite andb_false_r, H. reflexivity.
Qed.

(** X12.  Shooting has no cooldown and does not need the ground: [n]
    presses of [KeyE] between two ticks, while the game is not over, push
    [n] identical letters, at world [x] = [hero.worldX + 90] and [y] =
    [hero.y + 30], and change nothing else. *)
Theorem fire_has_no_cooldown n w :
  gameOver w = false ->
  Nat.iter n (keydown "KeyE") w =
  set_letters (letters w ++
    repeat (Letter.mk (Hero.worldX (hero w) + HERO_SIZE + 10)
                      (Hero.y (hero w) + HERO_SIZE / 2 - LETTER_SIZE / 2)
                      LETTER_SIZE LETTER_SIZE 8) n) w.
Proof.
  intros Hlive. induction n as [|n IH].
  - simpl. rewrite app_nil_r. destruct w; reflexivity.
  - cbn [Nat.iter nat_rect]. unfold Nat.iter in IH. rewrite IH.
    rewrite keydown_fire by exact Hlive. reads.
    rewrite <- app_assoc. rewrite <- repeat_cons. reflexivity.
Qed.

End Keys.

Lemma jump_is_idempotent_witness :
  keydown "Space" (keydown "Space" (initial canvas800 0)) =
  keydown "Space" (initial canvas800 0) /\
  Hero.vy (hero (keydown "Space" (initial canvas800 0))) = JUMP_VELOCITY.
Proof.
  split; [|reflexivity].
  apply (jump_is_idempotent "Space" (initial canvas800 0)).
  discriminate.
Defined.

Lemma fire_has_no_cooldown_witness :
  length (letters (Nat.iter 5 (keydown "KeyE") (initial canvas800 0))) = 5%nat.
Proof.
  rewrite (fire_has_no_cooldown 5 (initial canvas800 0) eq_refl).
  reflexivity.
Defined.

(** ** The arc of a jump *)

Section Jump.

Variable canvas : Canvas.t.
Variable oracle : nat -> Q.

Lemma vertical_physics_fall w :
  kinematics (vertical_physics canvas w) = fall canvas (kinematics w).
Proof.
  by_fields w. unfold vertical_physics, kinematics, fall, groundY. fields.
  match goal with |- context [if ?c then _ else _] => destruct c end; reflexivity.
Qed.

Lemma tick_fall dt w :
  gameOver w = false ->
  kinematics (tick canvas oracle dt w) = fall canvas (kinematics w).
Proof.
  intros Hlive.
  destruct (tick_frame canvas oracle dt w Hlive)
    as (_ & _ & _ & _ & _ & _ & _ & Hy & Hvy & Hg & _).
  unfold kinematics at 1. rewrite Hy, Hvy, Hg.
  rewrite before_loops_y, before_loops_vy, before_loops_onGround.
  apply vertical_physics_fall.
Qed.

Lemma updates_game_over dts w :
  gameOver w = true -> updates canvas oracle dts w = Some w.
Proof.
  intros Hover. induction dts as [|dt dts IH]; simpl; [reflexivity|].
  unfold update at 1. rewrite Hover. simpl. exact IH.
Qed.

(** A run of ticks that ends with the game not over has moved the hero
    vertically once per tick. *)
Lemma updates_fall dts : forall w w',
  updates canvas oracle dts w = Some w' ->
  gameOver w' = false ->
  kinematics w' = Nat.iter (length dts) (fall canvas) (kinematics w).
Proof.
  induction dts as [|dt dts IH]; intros w w' Hrun Hlive.
  - simpl in Hrun. injection Hrun as <-. reflexivity.
  - destruct (gameOver w) eqn:Hw.
    { rewrite updates_game_over in Hrun by exact Hw.
      injection Hrun as <-. congruence. }
    simpl in Hrun. rewrite update_tick in Hrun. simpl in Hrun.
    rewrite (IH _ _ Hrun Hlive), (tick_fall dt w Hw).
    cbn [length]. rewrite Nat.iter_succ_r. reflexivity.
Qed.

Lemma inject_succ k : inject_Z (Z.of_nat (S k)) == inject_Z (Z.of_nat k) + 1.
Proof. rewrite Nat2Z.inj_succ. unfold Z.succ. rewrite inject_Z_plus. reflexivity. Qed.

Lemma jump_height_succ k :
  jump_height (S k) == jump_height k + 12 - (inject_Z (Z.of_nat k) + 1) / 2.
Proof. unfold jump_height. rewrite inject_succ. field. Qed.

Lemma jump_height_bounds k :
  (k <= 47)%nat -> 0 <= jump_height k /\ jump_height k <= 138.
Proof.
  intros Hk.
  assert (Hall : forallb (fun k => Qle_bool 0 (jump_height k) &&
                                  Qle_bool (jump_height k) 138) (seq 0 48) = true)
    by (vm_compute; reflexivity).
  rewrite forallb_forall in Hall.
  specialize (Hall k). rewrite andb_true_iff, !Qle_bool_iff in Hall.
  apply Hall. apply in_seq. lia.
Qed.

Lemma fall_arc k :
  (k <= 47)%nat ->
  forall y0, y0 == groundY canvas ->
  exists y v,
    Nat.iter k (fall canvas) (y0, JUMP_VELOCITY, false) = (y, v, false) /\
    y == groundY canvas - jump_height k /\
    v == -12 + inject_Z (Z.of_nat k) / 2.
Proof.
  induction k as [|k IH]; intros Hk y0 Hy0.
  - exists y0, JUMP_VELOCITY. split; [reflexivity|].
    assert (H0 : jump_height 0 == 0) by reflexivity.
    split; [rewrite Hy0, H0; lra|reflexivity].
  - destruct (IH ltac:(lia) y0 Hy0) as (y & v & Hiter & Hy & Hv).
    cbn [Nat.iter nat_rect]. unfold Nat.iter in Hiter. rewrite Hiter.
    unfold fall. fold (groundY canvas).
    assert (Hy' : y + (v + GRAVITY) == groundY canvas - jump_height (S k)).
    { rewrite jump_height_succ. unfold GRAVITY. rewrite Hy, Hv. field. }
    assert (Hv' : v + GRAVITY == -12 + inject_Z (Z.of_nat (S k)) / 2).
    { rewrite inject_succ. unfold GRAVITY. rewrite Hv. field. }
    destruct (jump_height_bounds (S k) Hk) as (Hlow & _).
    assert (Hno : Qgtb (y + (v + GRAVITY)) (groundY canvas) = false).
    { apply Qgtb_le. rewrite Hy'. lra. }
    rewrite Hno. eauto.
Qed.

(** X13.  A jump from the ground.  Take a reachable state with the hero on
    the ground, press [Space], and run ticks (any elapsed times) through
    which the game does not end.  For the first 47 ticks the hero is
    airborne, [12 k - k (k + 1) / 4] above the ground line after [k] ticks
    and never more than 138 above it; the 47th tick brings it back onto the
    line, and the 48th sets [onGround] again, with velocity 0. *)
Theorem jump_lasts_48_ticks w dts w' :
  reachable canvas oracle w ->
  Hero.onGround (hero w) = true ->
  updates canvas oracle dts (keydown "Space" w) = Some w' ->
  gameOver w' = false ->
  ((length dts <= 47)%nat ->
     Hero.onGround (hero w') = false /\
     Hero.y (hero w') == groundY canvas - jump_height (length dts) /\
     groundY canvas - 138 <= Hero.y (hero w') <= groundY canvas) /\
  (length dts = 48%nat ->
     Hero.onGround (hero w') = true /\
     Hero.y (hero w') = groundY canvas /\
     Hero.vy (hero w') = 0).
Proof.
  intros Hw Hground Hrun Hlive.
  destruct (reachable_hero_ok canvas oracle w Hw) as (_ & _ & _ & _ & Hstand).
  destruct (Hstand Hground) as (Hy0 & _). fold (groundY canvas) in Hy0.
  assert (Hw0 : gameOver w = false).
  { destruct (gameOver w) eqn:E; [|reflexivity].
    rewrite keydown_game_over in Hrun by exact E.
    rewrite updates_game_over in Hrun by exact E.
    injection Hrun as <-. congruence. }
  pose proof (updates_fall dts _ _ Hrun Hlive) as Hkin.
  assert (Hstart : kinematics (keydown "Space" w) =
                   (Hero.y (hero w), JUMP_VELOCITY, false)).
  { rewrite keydown_not_fire by reflexivity.
    rewrite Hw0, Hground. reflexivity. }
  rewrite Hstart in Hkin. clear Hstart.
  split.
  - intros Hk.
    destruct (fall_arc (length dts) Hk (Hero.y (hero w)) ltac:(rewrite Hy0; reflexivity))
      as (y & v & Hiter & Hy & Hv).
    rewrite Hiter in Hkin. unfold kinematics in Hkin.
    injection Hkin as Ey Ev Eg. rewrite Ey, Eg.
    destruct (jump_height_bounds (length dts) Hk) as (Hlow & Hhigh).
    split; [reflexivity|]. split; [exact Hy|]. rewrite Hy. split; lra.
  - intros Hk. rewrite Hk in Hkin.
    destruct (fall_arc 47 ltac:(lia) (Hero.y (hero w)) ltac:(rewrite Hy0; reflexivity))
      as (y & v & Hiter & Hy & Hv).
    change (Nat.iter 48 (fall canvas) ?x)
      with (fall canvas (Nat.iter 47 (fall canvas) x)) in Hkin.
    rewrite Hiter in Hkin. unfold fall in Hkin. fold (groundY canvas) in Hkin.
    assert (Hland : Qgtb (y + (v + GRAVITY)) (groundY canvas) = true).
    { assert (H47 : jump_height 47 == 0) by reflexivity.
      assert (Hq : inject_Z (Z.of_nat 47) / 2 == 23.5) by reflexivity.
      apply Qgtb_gt. rewrite Hy, Hv, H47, Hq. unfold GRAVITY. lra. }
    rewrite Hland in Hkin. unfold kinematics in Hkin.
    injection Hkin as Ey Ev Eg. rewrite Ey, Ev, Eg. repeat split.
Qed.

End Jump.

(** ** The pixel loop of [removeDarkBackground] *)

Section Pixels.

Local Open Scope nat_scope.

Variable threshold : Q.

Ltac decide_nat :=
  repeat match goal with
         | |- context [(?a <=? ?b)%nat] => destruct (Nat.leb_spec a b)
         | |- context [(?a <? ?b)%nat] => destruct (Nat.ltb_spec a b)
         | |- context [(?a =? ?b)%nat] => destruct (Nat.eqb_spec a b)
         end.

(** Clearing one alpha byte does not change which pixels are dark. *)
Lemma is_dark_insert_alpha pixels c j :
  is_dark threshold (<[(4 * c + 3)%nat := 0%Z]> pixels) j = is_dark threshold pixels j.
Proof.
  unfold is_dark. rewrite !list_lookup_insert_ne by lia. reflexivity.
Qed.

(** What the loop, entered at pixel [c] with [n] iterations of fuel, leaves
    in byte [r] of pixel [j]. *)
Lemma pixel_loop_lookup n : forall c pixels j r,
  (r < 4)%nat ->
  pixel_loop threshold n (4 * c) pixels !! (4 * j + r)%nat =
  if (r =? 3)%nat && (c <=? j)%nat && (j <? c + n)%nat && is_dark threshold pixels j
  then (fun _ => 0%Z) <$> pixels !! (4 * j + r)%nat
  else pixels !! (4 * j + r)%nat.
Proof.
  induction n as [|n IH]; intros c pixels j r Hr.
  - cbn [pixel_loop]. decide_nat; cbn [andb]; try reflexivity; lia.
  - cbn [pixel_loop].
    destruct (Nat.ltb_spec (4 * c) (length pixels)) as [Hin|Hout].
    + replace (4 * c + 4)%nat with (4 * S c)%nat by lia.
      rewrite IH by exact Hr.
      fold (is_dark threshold pixels c).
      destruct (is_dark threshold pixels c) eqn:Hdark.
      * rewrite is_dark_insert_alpha.
        destruct (Nat.eq_dec j c) as [->|Hne].
        { destruct (Nat.eq_dec r 3) as [->|Hr3].
          - rewrite Hdark. decide_nat; cbn [andb]; try lia.
            destruct (Nat.lt_ge_cases (4 * c + 3) (length pixels)) as [Hlt|Hge].
            + rewrite list_lookup_insert_eq by exact Hlt.
              destruct (lookup_lt_is_Some_2 pixels (4 * c + 3) Hlt) as [a ->].
              reflexivity.
            + rewrite !lookup_ge_None_2; [reflexivity|lia|rewrite length_insert; lia].
          - rewrite list_lookup_insert_ne by lia.
            decide_nat; cbn [andb]; try reflexivity; lia. }
        rewrite list_lookup_insert_ne by lia.
        decide_nat; cbn [andb]; try reflexivity; lia.
      * decide_nat; cbn [andb]; try reflexivity; try lia.
        subst. replace j with c in * by lia. rewrite Hdark. reflexivity.
    + decide_nat; cbn [andb]; try reflexivity.
      destruct (is_dark threshold pixels j); [|reflexivity].
      rewrite lookup_ge_None_2 by lia. reflexivity.
Qed.

Lemma pixel_loop_length n : forall i pixels,
  length (pixel_loop threshold n i pixels) = length pixels.
Proof.
  induction n as [|n IH]; intros i pixels; cbn [pixel_loop]; [reflexivity|].
  destruct (i <? length pixels); [|reflexivity].
  rewrite IH. destruct (_ && _); [apply length_insert|reflexivity].
Qed.

(** With at least one unit of fuel per byte the fuel plays no part. *)
Lemma pixel_loop_full n pixels j r :
  length pixels <= n -> r < 4 ->
  pixel_loop threshold n 0 pixels !! (4 * j + r) =
  if (r =? 3) && is_dark threshold pixels j
  then (fun _ => 0%Z) <$> pixels !! (4 * j + r)
  else pixels !! (4 * j + r).
Proof.
  intros Hn Hr.
  pose proof (pixel_loop_lookup n 0 pixels j r Hr) as H.
  change (4 * 0) with 0 in H. rewrite H. clear H.
  decide_nat; cbn [andb]; try reflexivity; try lia.
  destruct (is_dark threshold pixels j); [|reflexivity].
  rewrite lookup_ge_None_2 by lia. reflexivity.
Qed.

Lemma by_pixel (l1 l2 : list Z) :
  (forall j r, r < 4 -> l1 !! (4 * j + r) = l2 !! (4 * j + r)) -> l1 = l2.
Proof.
  intros H. apply list_eq. intros k.
  rewrite (Nat.div_mod_eq k 4). apply H. apply Nat.mod_upper_bound. lia.
Qed.

(** X14.  The pixel loop of [removeDarkBackground] keeps the length of the
    array and every colour byte; the alpha byte of a pixel becomes 0 when
    its red, green and blue bytes are all below the threshold and is kept
    otherwise; running the loop a second time changes nothing; and the loop
    stops by its own test, whatever fuel it is given beyond one unit per
    byte. *)
Theorem removeDarkBackground_clears_dark_alpha pixels :
  length (removeDarkBackground_pixels threshold pixels) = length pixels /\
  (forall j r, r < 3 ->
     removeDarkBackground_pixels threshold pixels !! (4 * j + r) =
     pixels !! (4 * j + r)) /\
  (forall j a, pixels !! (4 * j + 3) = Some a ->
     removeDarkBackground_pixels threshold pixels !! (4 * j + 3) =
     Some (if is_dark threshold pixels j then 0%Z else a)) /\
  removeDarkBackground_pixels threshold
    (removeDarkBackground_pixels threshold pixels) =
  removeDarkBackground_pixels threshold pixels /\
  (forall extra,
     pixel_loop threshold (length pixels + extra) 0 pixels =
     removeDarkBackground_pixels threshold pixels).
Proof.
  assert (Hcolour : forall j r, r < 3 ->
            removeDarkBackground_pixels threshold pixels !! (4 * j + r) =
            pixels !! (4 * j + r)).
  { intros j r Hr. unfold removeDarkBackground_pixels.
    rewrite pixel_loop_full by lia.
    destruct (Nat.eqb_spec r 3); [lia|reflexivity]. }
  assert (Hdark : forall j,
            is_dark threshold (removeDarkBackground_pixels threshold pixels) j =
            is_dark threshold pixels j).
  { intros j. unfold is_dark.
    rewrite <- (Nat.add_0_r (4 * j)) at 1 4.
    rewrite !Hcolour by lia. reflexivity. }
  split; [apply pixel_loop_length|]. split; [exact Hcolour|]. split; [|split].
  - intros j a Ha. unfold removeDarkBackground_pixels.
    rewrite pixel_loop_full by lia. rewrite Ha. cbn [Nat.eqb andb].
    destruct (is_dark threshold pixels j); reflexivity.
  - apply by_pixel. intros j r Hr.
    unfold removeDarkBackground_pixels at 1.
    rewrite pixel_loop_full by (rewrite ?pixel_loop_length; lia).
    rewrite Hdark.
    unfold removeDarkBackground_pixels. rewrite pixel_loop_full by lia.
    destruct ((r =? 3) && is_dark threshold pixels j); [|reflexivity].
    destruct (pixels !! (4 * j + r)); reflexivity.
  - intros extra. apply by_pixel. intros j r Hr.
    unfold removeDarkBackground_pixels.
    rewrite !pixel_loop_full by lia. reflexivity.
Qed.

End Pixels.

(** Two pixels, the first dark (10, 20, 30) and opaque, the second bright:
    with the default threshold 40 only the first becomes transparent. *)
Example removeDarkBackground_two_pixels :
  removeDarkBackground_pixels 40 [10; 20; 30; 255; 10; 200; 30; 255]%Z =
  [10; 20; 30; 0; 10; 200; 30; 255]%Z.
Proof. reflexivity. Qed.

(** The 48 ticks after a jump from the start position. *)
Lemma jump_lasts_48_ticks_witness :
  exists w',
    updates canvas800 zero_oracle (repeat 0.016 48)
      (keydown "Space" (initial canvas800 0)) = Some w' /\
    gameOver w' = false /\
    Hero.onGround (hero w') = true /\
    Hero.y (hero w') = groundY canvas800 /\
    Hero.vy (hero w') = 0.
Proof.
  assert (Hrun : exists w',
            updates canvas800 zero_oracle (repeat 0.016 48)
              (keydown "Space" (initial canvas800 0)) = Some w' /\
            gameOver w' = false).
  { eexists. split; [vm_compute; reflexivity|reflexivity]. }
  destruct Hrun as (w' & Hrun & Hlive).
  exists w'. split; [exact Hrun|]. split; [exact Hlive|].
  apply (jump_lasts_48_ticks canvas800 zero_oracle (initial canvas800 0)
           (repeat 0.016 48) w' (reachable_initial _ _ _) eq_refl Hrun Hlive).
  reflexivity.
Defined.

(** ** The background *)

Section Background.

Variable canvas : Canvas.t.
Variable oracle : nat -> Q.
Variable bg : Image.t.

(** For a dividend that is not negative and a positive divisor the
    remainder is in [0, b). *)
Lemma Qrem_range a b : 0 <= a -> 0 < b -> 0 <= Qrem a b /\ Qrem a b < b.
Proof.
  intros Ha Hb. unfold Qrem. cbv zeta.
  assert (Hq : 0 <= a / b).
  { unfold Qdiv. apply Qmult_le_0_compat; [exact Ha|].
    apply Qlt_le_weak, Qinv_lt_0_compat. exact Hb. }
  apply Qle_bool_iff in Hq as Hq'. rewrite Hq'.
  pose proof (Qfloor_le (a / b)) as Hlow.
  pose proof (Qlt_floor (a / b)) as Hhigh.
  rewrite inject_Z_plus in Hhigh.
  assert (Hab : b * (a / b) == a) by (apply Qmult_div_r; lra).
  set (f := inject_Z (Qfloor (a / b))) in *. set (q := a / b) in *.
  change (inject_Z 1) with 1 in Hhigh.
  assert (H1 : b * f <= b * q) by (apply Qmult_le_l; assumption).
  assert (H2 : b * q < b * (f + 1)) by (apply Qmult_lt_l; assumption).
  split; lra.
Qed.

(** X15.  In every reachable state, with a background image of positive
    size on a canvas of positive height: [draw] paints three copies of the
    background side by side, each as high as the canvas, the first one
    starting at or left of the left edge and less than one copy width left
    of it; so whenever the canvas is at most two copy widths wide, every
    column of the canvas lies in one of the three copies. *)
Theorem background_covers_canvas w :
  reachable canvas oracle w ->
  0 < Image.width bg -> 0 < Image.height bg -> 0 < Canvas.height canvas ->
  let copy := Image.width bg * (Canvas.height canvas / Image.height bg) in
  exists x0,
    draw_background canvas bg w =
      [(x0 + 0 * copy, 0, copy, Canvas.height canvas);
       (x0 + 1 * copy, 0, copy, Canvas.height canvas);
       (x0 + 2 * copy, 0, copy, Canvas.height canvas)] /\
    0 < copy /\ - copy < x0 <= 0 /\
    (Canvas.width canvas <= 2 * copy ->
     forall x, 0 <= x <= Canvas.width canvas ->
       (x0 <= x <= x0 + copy) \/
       (x0 + copy <= x <= x0 + 2 * copy) \/
       (x0 + 2 * copy <= x <= x0 + 3 * copy)).
Proof.
  intros Hw Hbw Hbh Hch copy.
  destruct (reachable_hero_ok canvas oracle w Hw) as (_ & _ & Hcam & _).
  assert (Hcopy : 0 < copy).
  { unfold copy, Qdiv. apply Qmult_lt_0_compat; [exact Hbw|].
    apply Qmult_lt_0_compat; [exact Hch|]. apply Qinv_lt_0_compat. exact Hbh. }
  destruct (Qrem_range (cameraX w) copy Hcam Hcopy) as (Hlow & Hhigh).
  exists (- Qrem (cameraX w) copy).
  split; [reflexivity|]. split; [exact Hcopy|]. split; [split; lra|].
  intros Hwide x Hx.
  assert (Hx0 : - copy < - Qrem (cameraX w) copy <= 0) by (split; lra).
  revert Hx0. generalize (- Qrem (cameraX w) copy). intros x0 Hx0.
  destruct (Qlt_le_dec (x0 + copy) x) as [H1|H1]; [|left; split; lra].
  destruct (Qlt_le_dec (x0 + 2 * copy) x) as [H2|H2]; [|right; left; split; lra].
  right; right. split; lra.
Qed.

End Background.

(** The start state on an 800 by 400 canvas with a 1024 by 512 background:
    the copies are 800 wide. *)
Lemma background_covers_canvas_witness :
  draw_background canvas800 (Image.mk 1024 512) (initial canvas800 0) =
  map (fun i : Q => (- Qrem 0 (1024 * (400 / 512)) + i * (1024 * (400 / 512)), 0,
                     1024 * (400 / 512), 400)) [0; 1; 2] /\
  exists x0 : Q, - (1024 * (400 / 512)) < x0 <= 0.
Proof.
  split; [reflexivity|].
  destruct (background_covers_canvas canvas800 zero_oracle (Image.mk 1024 512)
              (initial canvas800 0) (reachable_initial _ _ _)
              eq_refl eq_refl eq_refl)
    as (x0 & _ & _ & Hx0 & _).
  exists x0. exact Hx0.
Defined.
